(** * grub.io: join-code allocation, event join, claim lifecycle, analytics

    A shallow embedding of the Firestore-backed screens of the app:
    - [app/create-event.tsx]   ([generateJoinCode], [isJoinCodeUnique], [createEvent])
    - [app/join-event.tsx]     ([handleJoinEvent])
    - [app/join-event-qr.tsx]  ([barcodeScanned])
    - [app/event/create-post.tsx] ([createPost])
    - [app/event/[id].tsx]     ([claimPost], [markComplete], [renderPost],
                                the two post listeners, [renderAnalyticsTab])
    - [app/notifications.tsx]  ([markAsRead], [notificationPress],
                                [formatTimestamp], the listener)
    - [src/screens/home-screen.tsx]  ([getEvents], the unread count)
    - [src/screens/login-screen.tsx] ([signUp])

    The document store is a record of finite maps from document ids to
    documents; every handler is a function from the store to the new store and
    the list of user-visible effects (alerts, navigation) it produced.

    Handlers run one at a time.  A request to the store succeeds, except the
    update of a document that does not exist, which is rejected and lands in
    the handler's [catch].  A name that a module uses without binding it
    throws a ReferenceError when it is evaluated.  [Timestamp.now()] is the
    argument [now]; [Math.random] is an oracle.

    Strings are strings of ASCII characters: [trim], [toUpperCase] and
    [toLowerCase] are those of JavaScript on such text only, and a statement
    about text that a user typed or scanned says, by [JS.ascii_only], that
    the text is ASCII. *)

From Stdlib Require Import ZArith String Ascii List Bool Lia.
From Stdlib Require Import SpecFloat.
From stdpp Require Import gmap strings list fin_maps sorting pretty.

Open Scope string_scope.

(** ** JavaScript values used by the screens *)

Module JS.

(** Truthiness of a [string | null] value: [null] and the empty string are
    falsy. *)
Definition truthy (v : option string) : bool :=
  match v with
  | Some (String _ _) => true
  | _ => false
  end.

(** [!s] for a string. *)
Definition blank (s : string) : bool :=
  match s with
  | EmptyString => true
  | String _ _ => false
  end.

(** [a || b] on [string | null] operands. *)
Definition or_else (a b : option string) : option string :=
  if truthy a then a else b.

(** [a === u] between a [string | null] value and a string. *)
Definition strict_eq (a : option string) (u : string) : bool :=
  bool_decide (a = Some u).

(** String conversion in a template literal: [null] prints as "null". *)
Definition to_display (v : option string) : string :=
  match v with
  | Some s => s
  | None => "null"
  end.

(** [String.prototype.charAt]: the one-character string at [i], the empty
    string when [i] is out of range. *)
Fixpoint charAt (s : string) (i : nat) : string :=
  match s, i with
  | EmptyString, _ => EmptyString
  | String c _, O => String c EmptyString
  | String _ r, S j => charAt r j
  end.

(** A character of the ASCII range, and a text of such characters. *)
Definition is_ascii (c : ascii) : bool := (nat_of_ascii c <? 128)%nat.

Fixpoint ascii_only (s : string) : bool :=
  match s with
  | EmptyString => true
  | String c r => is_ascii c && ascii_only r
  end.

(** White space and line terminators of ECMAScript within ASCII:
    TAB, LF, VT, FF, CR, SPACE.  Outside ASCII, [String.prototype.trim] also
    strips U+00A0, U+FEFF, U+2028, U+2029 and the space separators; these
    are not characters of the model. *)
Definition is_space (c : ascii) : bool :=
  let n := nat_of_ascii c in
  ((9 <=? n)%nat && (n <=? 13)%nat) || (n =? 32)%nat.

Fixpoint trimStart (s : string) : string :=
  match s with
  | EmptyString => EmptyString
  | String c r => if is_space c then trimStart r else s
  end.

Fixpoint trimEnd (s : string) : string :=
  match s with
  | EmptyString => EmptyString
  | String c r =>
      match trimEnd r with
      | EmptyString => if is_space c then EmptyString else String c EmptyString
      | r' => String c r'
      end
  end.

(** [trim] on [ascii_only] text. *)
Definition trim (s : string) : string := trimEnd (trimStart s).

(** [toUpperCase] on [ascii_only] text: the letters a-z are mapped, every
    other character is kept. *)
Definition upper_ascii (c : ascii) : ascii :=
  let n := nat_of_ascii c in
  if (97 <=? n)%nat && (n <=? 122)%nat then ascii_of_nat (n - 32) else c.

Fixpoint toUpperCase (s : string) : string :=
  match s with
  | EmptyString => EmptyString
  | String c r => String (upper_ascii c) (toUpperCase r)
  end.

(** [s.startsWith(p)]. *)
Fixpoint startsWith (p s : string) : bool :=
  match p, s with
  | EmptyString, _ => true
  | String a p', String b s' => bool_decide (a = b) && startsWith p' s'
  | String _ _, EmptyString => false
  end.

(** [s.substring(n)]: drops the first [n] characters. *)
Fixpoint substring (n : nat) (s : string) : string :=
  match n, s with
  | O, _ => s
  | S _, EmptyString => EmptyString
  | S m, String _ r => substring m r
  end.

(** [arr.includes(x)] on an array of strings. *)
Definition includes (arr : list string) (x : string) : bool :=
  bool_decide (x ∈ arr).

(** A thrown error: the evaluation of a name that nothing binds. *)
Inductive Error :=
| ReferenceError (name : string).

(** The outcome of code that may throw. *)
Inductive Completion (A : Type) :=
| Normal (a : A)
| Throw (e : Error).
Global Arguments Normal {A} a.
Global Arguments Throw {A} e.

Global Instance completion_ret : MRet Completion := λ A a, Normal a.
Global Instance completion_bind : MBind Completion := λ A B k c,
  match c with
  | Normal a => k a
  | Throw e => Throw e
  end.

End JS.

(** ** Join codes ([app/create-event.tsx]) *)

Definition chars : string := "ABCDEFGHIJKLMNOPQRSTUVWXYZ0123456789".

(** [generateJoinCode]: six draws.  [rnd k] is the value of
    [Math.floor(Math.random() * chars.length)] at the [k]-th call of
    [Math.random]; [pos] counts the calls made so far. *)
Fixpoint generateJoinCode_loop (rnd : nat → nat) (pos : nat) (i : nat)
    (code : string) : string :=
  match i with
  | O => code
  | S j => generateJoinCode_loop rnd (S pos) j (code +:+ JS.charAt chars (rnd pos))
  end.

Definition generateJoinCode (rnd : nat → nat) (pos : nat) : string * nat :=
  (generateJoinCode_loop rnd pos 6 EmptyString, pos + 6).

(** A character of the join-code alphabet: an upper-case letter or a digit. *)
Definition code_char (c : ascii) : bool :=
  let n := nat_of_ascii c in
  ((65 <=? n)%nat && (n <=? 90)%nat) || ((48 <=? n)%nat && (n <=? 57)%nat).

Fixpoint all_chars (p : ascii → bool) (s : string) : bool :=
  match s with
  | EmptyString => true
  | String c r => p c && all_chars p r
  end.

(** A well-formed join code: six characters over A-Z, 0-9. *)
Definition valid_code (s : string) : Prop :=
  String.length s = 6 ∧ all_chars code_char s = true.

(** ** Documents *)

(** [auth.currentUser]: the identity issued by the authentication service. *)
Module AuthUser.
Record t := mk { uid : string; email : option string }.
End AuthUser.

(** [users/{uid}], written by [signUp] in [src/screens/login-screen.tsx] as
    [{ displayName, email, createdAt }]. *)
Module UserDoc.
Record t := mk { displayName : string; email : string; createdAt : Z }.
End UserDoc.

(** [events/{eventId}]. *)
Module Event.
Record t := mk {
  title : string;
  description : string;
  date : string;
  createdBy : string;
  attendees : list string;
  joinCode : string;
  createdAt : Z
}.

Definition with_attendees (a : list string) (e : t) : t :=
  mk (title e) (description e) (date e) (createdBy e) a (joinCode e) (createdAt e).
End Event.

(** [events/{eventId}/posts/{postId}]: the fields of type [Post] other than
    [id], which the listeners add from the document id. *)
Module Post.
Record t := mk {
  title : string;
  description : string;
  location : string;
  imageUrl : option string;
  userId : string;
  userName : option string;
  userEmail : option string;
  claimedBy : option string;
  claimedByName : option string;
  claimedByEmail : option string;
  completed : bool;
  createdAt : Z
}.

(** The partial update [{ claimedBy, claimedByName, claimedByEmail }]. *)
Definition with_claim (by_ name mail : option string) (p : t) : t :=
  mk (title p) (description p) (location p) (imageUrl p) (userId p)
     (userName p) (userEmail p) by_ name mail (completed p) (createdAt p).

(** The partial update [{ completed }]. *)
Definition with_completed (b : bool) (p : t) : t :=
  mk (title p) (description p) (location p) (imageUrl p) (userId p)
     (userName p) (userEmail p) (claimedBy p) (claimedByName p)
     (claimedByEmail p) b (createdAt p).
End Post.

(** [notifications/{notificationId}]. *)
Module Notification.
Record t := mk {
  userId : string;
  type : string;
  message : string;
  eventId : string;
  postId : string;
  read : bool;
  createdAt : Z
}.

Definition with_read (b : bool) (n : t) : t :=
  mk (userId n) (type n) (message n) (eventId n) (postId n) b (createdAt n).
End Notification.

(** ** The document store *)

Record Store := mkStore {
  users : gmap string UserDoc.t;
  events : gmap string Event.t;
  posts : gmap string (gmap string Post.t);
  notifications : gmap string Notification.t
}.

Definition set_events (ev : gmap string Event.t) (s : Store) : Store :=
  mkStore (users s) ev (posts s) (notifications s).
Definition set_posts (ps : gmap string (gmap string Post.t)) (s : Store) : Store :=
  mkStore (users s) (events s) ps (notifications s).
Definition set_notifications (ns : gmap string Notification.t) (s : Store) : Store :=
  mkStore (users s) (events s) (posts s) ns.

(** The sub-collection [events/{eventId}/posts]. *)
Definition postsOf (s : Store) (eventId : string) : gmap string Post.t :=
  default ∅ (posts s !! eventId).

(** *** Firestore primitives *)

(** [addDoc]: stores the document under an id that is not in use in the
    collection and returns that id. *)
Definition addDoc {A} (m : gmap string A) (d : A) : string * gmap string A :=
  let k := fresh (dom m) in (k, <[k := d]> m).

(** [updateDoc]: applies a partial update to an existing document; on a
    missing document the promise is rejected ([None]). *)
Definition updateDoc {A} (m : gmap string A) (k : string) (f : A → A)
    : option (gmap string A) :=
  match m !! k with
  | Some d => Some (<[k := f d]> m)
  | None => None
  end.

(** [arrayUnion(x)] applied to an array field. *)
Definition arrayUnion (x : string) (arr : list string) : list string :=
  if JS.includes arr x then arr else arr ++ [x].

(** Documents of a collection in document-id order, the order of a query
    without [orderBy]. *)
Definition by_id {A} (a b : string * A) : Prop := String.le a.1 b.1.

Global Instance by_id_dec {A} : RelDecision (@by_id A).
Proof. intros a b. unfold by_id. apply _. Defined.

Definition docs {A} (m : gmap string A) : list (string * A) :=
  merge_sort by_id (map_to_list m).

(** [query(eventsRef, where("joinCode", "==", code))]. *)
Definition eventsByJoinCode (s : Store) (code : string) : list (string * Event.t) :=
  filter (λ d, Event.joinCode d.2 = code) (docs (events s)).

(** [orderBy("createdAt", "desc")]; ties are ordered by document id in the
    same direction. *)
Definition newest_first (a b : string * Post.t) : Prop :=
  (Post.createdAt b.2 < Post.createdAt a.2)%Z
  ∨ (Post.createdAt a.2 = Post.createdAt b.2 ∧ String.le b.1 a.1).

Global Instance newest_first_dec : RelDecision newest_first.
Proof. intros a b. unfold newest_first. apply _. Defined.

(** The listener for ALL posts of the event: [allPosts]. *)
Definition allPostsQuery (s : Store) (eventId : string) : list (string * Post.t) :=
  merge_sort newest_first (map_to_list (postsOf s eventId)).

(** The active-feed listener: [where("completed", "==", false)]. *)
Definition activePostsQuery (s : Store) (eventId : string) : list (string * Post.t) :=
  merge_sort newest_first
    (filter (λ d, Post.completed d.2 = false) (map_to_list (postsOf s eventId))).

(** ** Handlers *)

(** What a handler shows to the user. *)
Inductive Effect :=
| Alert (title message : string)
| AlertError (e : JS.Error)    (* Alert.alert("Error", error.message) *)
| ReplaceEvent (id : string)   (* router.replace({ pathname: "/event/[id]", params: { id } }) *)
| Back.                        (* router.back() *)

(** The double-quote character of the message templates. *)
Definition dquote : string := String (ascii_of_nat 34) EmptyString.

(** *** [app/create-event.tsx] *)

(** The names the module binds by its imports (lines 1-7); from
    firebase/firestore these are [addDoc], [collection] and [Timestamp]. *)
Definition imports : list string :=
  [ "MaterialIcons"; "useRouter"; "addDoc"; "collection"; "Timestamp"; "React";
    "useState"; "Alert"; "ScrollView"; "StyleSheet"; "Text"; "TextInput";
    "TouchableOpacity"; "View"; "SafeAreaView"; "auth"; "db" ].

(** The evaluation of a name of firebase/firestore in the module: a name the
    module does not import is bound nowhere, and throws. *)
Definition resolve (name : string) : JS.Completion unit :=
  if bool_decide (name ∈ imports) then JS.Normal ()
  else JS.Throw (JS.ReferenceError name).

(** [isJoinCodeUnique]: [snapshot.empty] of the join-code query, once the
    names in the body are evaluated, in the order in which the body reaches
    them. *)
Definition isJoinCodeUnique (s : Store) (code : string) : JS.Completion bool :=
  _ ← resolve "collection";   (* const eventsRef = collection(db, "events") *)
  _ ← resolve "query";        (* const q = query(eventsRef, where(...)) *)
  _ ← resolve "where";
  _ ← resolve "getDocs";      (* const snapshot = await getDocs(q) *)
  mret (match eventsByJoinCode s code with
        | [] => true
        | _ :: _ => false
        end).

(** The loop [while (!isUnique)] of [createEvent], entered with the code and
    the answer of the round before.  The source loops without a bound;
    [fuel] is the number of rounds the model is willing to follow, and [None]
    means that all of them collided.  The result is the code, or the error
    thrown on the way, and the number of random draws made so far. *)
Fixpoint retryJoinCode (fuel : nat) (rnd : nat → nat) (pos : nat) (s : Store)
    (joinCode : string) (isUnique : bool) {struct fuel}
    : option (JS.Completion string * nat) :=
  if isUnique then Some (JS.Normal joinCode, pos)
  else
    match fuel with
    | O => None
    | S fuel' =>
        let '(joinCode', pos') := generateJoinCode rnd pos in
        match isJoinCodeUnique s joinCode' with
        | JS.Normal isUnique' => retryJoinCode fuel' rnd pos' s joinCode' isUnique'
        | JS.Throw e => Some (JS.Throw e, pos')
        end
    end.

(** Lines 72-82 of [createEvent]: the first code and its check, then the
    loop. *)
Definition allocateJoinCode (fuel : nat) (rnd : nat → nat) (pos : nat) (s : Store)
    : option (JS.Completion string * nat) :=
  let '(joinCode, pos') := generateJoinCode rnd pos in
  match isJoinCodeUnique s joinCode with
  | JS.Normal isUnique => retryJoinCode fuel rnd pos' s joinCode isUnique
  | JS.Throw e => Some (JS.Throw e, pos')
  end.

(** The outcome of [createEvent]: the store, the random draws consumed, what
    the user sees, and the join code of the event created, if one was. *)
Record Created := mkCreated {
  created_store : Store;
  created_pos : nat;
  created_effects : list Effect;
  created_code : option string
}.

(** [createEvent].  [date] is the text of the form; [timestampOf date] is
    the value of [Timestamp.fromDate(new Date(date))] that is stored.  An
    error thrown in the [try] block lands in its [catch], which shows the
    message of the error. *)
Definition createEvent (fuel : nat) (rnd : nat → nat) (pos : nat)
    (user : option AuthUser.t) (title description date : string)
    (timestampOf : string → string) (now : Z) (s : Store) : option Created :=
  match user with
  | None =>
      Some (mkCreated s pos [Alert "Error" "You must be logged in to create an event."] None)
  | Some u =>
      if JS.blank title || JS.blank description || JS.blank date then
        Some (mkCreated s pos [Alert "Error" "Please fill in all fields."] None)
      else
        match allocateJoinCode fuel rnd pos s with
        | None => None
        | Some (JS.Throw e, pos') => Some (mkCreated s pos' [AlertError e] None)
        | Some (JS.Normal joinCode, pos') =>
            let '(docId, ev) :=
              addDoc (events s)
                (Event.mk title description (timestampOf date) (AuthUser.uid u)
                   [AuthUser.uid u] joinCode now) in
            Some (mkCreated (set_events ev s) pos' [ReplaceEvent docId] (Some joinCode))
        end
  end.

(** One request to [createEvent]. *)
Record CreateRequest := mkCreateRequest {
  req_fuel : nat;
  req_user : option AuthUser.t;
  req_title : string;
  req_description : string;
  req_date : string;
  req_timestampOf : string → string;
  req_now : Z
}.

(** Event creations one after the other, each on the store the previous one
    left; returns the final store and the join codes allocated, in order. *)
Fixpoint createEvents (rnd : nat → nat) (pos : nat) (reqs : list CreateRequest)
    (s : Store) : option (Store * list string) :=
  match reqs with
  | [] => Some (s, [])
  | r :: reqs' =>
      match createEvent (req_fuel r) rnd pos (req_user r) (req_title r)
              (req_description r) (req_date r) (req_timestampOf r) (req_now r) s with
      | None => None
      | Some c =>
          match createEvents rnd (created_pos c) reqs' (created_store c) with
          | None => None
          | Some (s', codes) =>
              Some (s', match created_code c with
                        | Some code => code :: codes
                        | None => codes
                        end)
          end
      end
  end.

(** *** [app/join-event.tsx] and [app/join-event-qr.tsx] *)

Definition join (u : AuthUser.t) (e : Event.t) : Event.t :=
  Event.with_attendees (arrayUnion (AuthUser.uid u) (Event.attendees e)) e.

Definition handleJoinEvent (user : option AuthUser.t) (joinCode : string)
    (s : Store) : Store * list Effect :=
  match user with
  | None => (s, [Alert "Error" "You must be logged in to join an event."])
  | Some u =>
      if JS.blank (JS.trim joinCode) then
        (s, [Alert "Error" "Please enter a join code."])
      else
        match eventsByJoinCode s (JS.toUpperCase (JS.trim joinCode)) with
        | [] =>
            (s, [Alert "Not Found"
                   "No event found with that join code. Please check and try again."])
        | (eventId, eventData) :: _ =>
            if JS.includes (Event.attendees eventData) (AuthUser.uid u) then
              (s, [Alert "Already Joined" "You're already part of this event!";
                   ReplaceEvent eventId])
            else
              match updateDoc (events s) eventId (join u) with
              | Some ev =>
                  (set_events ev s,
                   [Alert "Success!"
                      ("You've joined " +:+ dquote +:+ Event.title eventData
                         +:+ dquote +:+ "!");
                    ReplaceEvent eventId])
              | None => (s, [Alert "Error" "Could not join event. Please try again."])
              end
        end
  end.

(** [scanned] is the screen's flag that a scan is already being handled. *)
Definition barcodeScanned (scanned : bool) (user : option AuthUser.t)
    (data : string) (s : Store) : Store * list Effect :=
  if scanned then (s, [])
  else
    match user with
    | None => (s, [Alert "Error" "You must be logged in to join an event."])
    | Some u =>
        let joinCode := if JS.startsWith "GRUBIO:" data then JS.substring 7 data else data in
        match eventsByJoinCode s (JS.toUpperCase joinCode) with
        | [] => (s, [Alert "Not Found" "No event found with that QR code."])
        | (eventId, eventData) :: _ =>
            if JS.includes (Event.attendees eventData) (AuthUser.uid u) then
              (s, [Alert "Already Joined" "You're already part of this event!";
                   ReplaceEvent eventId])
            else
              match updateDoc (events s) eventId (join u) with
              | Some ev => (set_events ev s, [ReplaceEvent eventId])
              | None => (s, [Alert "Error" "Could not join event. Please try again."])
              end
        end
    end.

(** *** [app/event/create-post.tsx] *)

(** [userDoc.exists() ? userDoc.data().displayName : null]. *)
Definition lookupDisplayName (s : Store) (uid : string) : option string :=
  UserDoc.displayName <$> users s !! uid.

(** [imageUrl] is the download URL of the uploaded picture, [None] when no
    picture was chosen. *)
Definition createPost (user : option AuthUser.t) (eventId : string)
    (title description location : string) (imageUrl : option string) (now : Z)
    (s : Store) : Store * list Effect :=
  match user with
  | None => (s, [Alert "Error" "You must be logged in to create a post."])
  | Some u =>
      if JS.blank (JS.trim title) || JS.blank (JS.trim description) then
        (s, [Alert "Error" "Please fill in title and description."])
      else
        let userName := lookupDisplayName s (AuthUser.uid u) in
        let '(_, ps) :=
          addDoc (postsOf s eventId)
            (Post.mk (JS.trim title) (JS.trim description) (JS.trim location)
               imageUrl (AuthUser.uid u) userName (AuthUser.email u)
               None None None false now) in
        (set_posts (<[eventId := ps]> (posts s)) s,
         [Alert "Success" "Food post created!"; Back])
  end.

(** *** [app/event/[id].tsx] *)

(** [updateDoc(doc(db, "events", id, "posts", postId), fields)]. *)
Definition updatePost (s : Store) (id postId : string) (f : Post.t → Post.t)
    : option Store :=
  match updateDoc (postsOf s id) postId f with
  | Some ps => Some (set_posts (<[id := ps]> (posts s)) s)
  | None => None
  end.

(** The text of the claim notification. *)
Definition claimMessage (userName email : option string) (postTitle : string)
    : string :=
  JS.to_display (JS.or_else userName email)
    +:+ " claimed your " +:+ dquote +:+ postTitle +:+ dquote.

(** [id] is the event of the screen, [currentUser] is [auth.currentUser]. *)
Definition claimPost (currentUser : option AuthUser.t) (id : string) (now : Z)
    (postId : string) (currentClaimedBy : option string)
    (postOwnerId postTitle : string) (s : Store) : Store * list Effect :=
  match currentUser with
  | None => (s, [])
  | Some u =>
      let userName := lookupDisplayName s (AuthUser.uid u) in
      if JS.strict_eq currentClaimedBy (AuthUser.uid u) then
        match updatePost s id postId (Post.with_claim None None None) with
        | Some s' => (s', [Alert "Unclaimed" "You've unclaimed this item."])
        | None => (s, [Alert "Error" "Could not update claim status."])
        end
      else
        match updatePost s id postId
                (Post.with_claim (Some (AuthUser.uid u)) userName (AuthUser.email u)) with
        | Some s' =>
            if bool_decide (postOwnerId ≠ AuthUser.uid u) then
              let '(_, ns) :=
                addDoc (notifications s')
                  (Notification.mk postOwnerId "claim"
                     (claimMessage userName (AuthUser.email u) postTitle)
                     id postId false now) in
              (set_notifications ns s', [])
            else (s', [])
        | None => (s, [Alert "Error" "Could not update claim status."])
        end
  end.

Definition markComplete (id postId : string) (s : Store) : Store * list Effect :=
  match updatePost s id postId (Post.with_completed true) with
  | Some s' => (s', [])
  | None => (s, [Alert "Error" "Could not mark as complete."])
  end.

(** [renderPost]: what the card of [item] offers to [currentUser].  An item is
    a post of a snapshot the screen received: its id and its fields. *)
Definition isOwner (currentUser : option AuthUser.t) (item : string * Post.t) : bool :=
  match currentUser with
  | Some u => bool_decide (Post.userId item.2 = AuthUser.uid u)
  | None => false
  end.

Definition isClaimed (item : string * Post.t) : bool :=
  JS.truthy (Post.claimedBy item.2).

Definition isClaimedByMe (currentUser : option AuthUser.t) (item : string * Post.t)
    : bool :=
  match currentUser with
  | Some u => JS.strict_eq (Post.claimedBy item.2) (AuthUser.uid u)
  | None => false
  end.

Inductive Control := Hidden | Disabled | Enabled.

(** The claim button: rendered for non-owners, disabled when the item is
    claimed by somebody else. *)
Definition claimButton (currentUser : option AuthUser.t) (item : string * Post.t)
    : Control :=
  if isOwner currentUser item then Hidden
  else if isClaimed item && negb (isClaimedByMe currentUser item) then Disabled
  else Enabled.

(** The "Mark Complete" button: rendered for the owner only. *)
Definition completeButton (currentUser : option AuthUser.t) (item : string * Post.t)
    : Control :=
  if isOwner currentUser item then Enabled else Hidden.

(** [onPress] of the claim button. *)
Definition pressClaim (currentUser : option AuthUser.t) (id : string) (now : Z)
    (item : string * Post.t) (s : Store) : Store * list Effect :=
  match claimButton currentUser item with
  | Enabled =>
      claimPost currentUser id now item.1
        (JS.or_else (Post.claimedBy item.2) None) (Post.userId item.2)
        (Post.title item.2) s
  | _ => (s, [])
  end.

(** [onPress] of the "Mark Complete" button. *)
Definition pressComplete (currentUser : option AuthUser.t) (id : string)
    (item : string * Post.t) (s : Store) : Store * list Effect :=
  match completeButton currentUser item with
  | Enabled => markComplete id item.1 s
  | _ => (s, [])
  end.

(** *** [app/notifications.tsx] *)

Definition markAsRead (notificationId : string) (s : Store) : Store * list Effect :=
  match updateDoc (notifications s) notificationId (Notification.with_read true) with
  | Some ns => (set_notifications ns s, [])
  | None => (s, [])
  end.

(** ** Analytics ([renderAnalyticsTab]) *)

(** JavaScript numbers are IEEE 754 binary64 values. *)
Definition prec : Z := 53.
Definition emax : Z := 1024.

(** The number with integer value [n]. *)
Definition num (n : Z) : spec_float := binary_normalize prec emax n 0 false.


(** [Math.round]: the nearest integer, ties towards +∞; [-0] for
    [-0.5 <= x < 0]; NaN, the infinities and the zeros are returned as they
    are. *)
Definition Math_round (x : spec_float) : spec_float :=
  match x with
  | S754_finite sg m e =>
      if (0 <=? e)%Z then x
      else
        let d := (2 ^ (- e))%Z in
        let n := ((2 * cond_Zopp sg (Z.pos m) + d) `div` (2 * d))%Z in
        if (n =? 0)%Z then S754_zero sg else num n
  | _ => x
  end.

Definition totalPosts (allPosts : list (string * Post.t)) : nat :=
  length allPosts.

Definition claimedPosts (allPosts : list (string * Post.t)) : nat :=
  length (filter (λ p, JS.truthy (Post.claimedBy p.2) = true) allPosts).

Definition completedPosts (allPosts : list (string * Post.t)) : nat :=
  length (filter (λ p, Post.completed p.2 = true) allPosts).



Global Instance spec_float_eq_dec : EqDecision spec_float.
Proof. solve_decision. Defined.

(** The percentage as the spec words it, in exact arithmetic:
    [round(claimed / total * 100)], the integer nearest to the quotient, ties
    upwards; 0 for no post. *)
Definition percentSaved_exact (claimed total : nat) : Z :=
  match total with
  | O => 0
  | S _ => (200 * Z.of_nat claimed + Z.of_nat total) `div` (2 * Z.of_nat total)
  end.





(** * The protocol as a whole *)

(** The writes a client can issue: every handler of the screens, with the
    arguments it is called with. *)
Inductive Op :=
| CreateEvent (fuel : nat) (rnd : nat → nat) (pos : nat) (user : option AuthUser.t)
    (title description date : string) (timestampOf : string → string) (now : Z)
| HandleJoinEvent (user : option AuthUser.t) (joinCode : string)
| BarcodeScanned (scanned : bool) (user : option AuthUser.t) (data : string)
| CreatePost (user : option AuthUser.t) (eventId title description location : string)
    (imageUrl : option string) (now : Z)
| ClaimPost (currentUser : option AuthUser.t) (id : string) (now : Z)
    (postId : string) (currentClaimedBy : option string)
    (postOwnerId postTitle : string)
| PressClaim (currentUser : option AuthUser.t) (id : string) (now : Z)
    (item : string * Post.t)
| MarkComplete (id postId : string)
| PressComplete (currentUser : option AuthUser.t) (id : string)
    (item : string * Post.t)
| MarkAsRead (notificationId : string).

(** The store after the handler has run.  A [createEvent] whose retry loop
    does not end within its fuel has written nothing. *)
Definition exec (op : Op) (s : Store) : Store :=
  match op with
  | CreateEvent fuel rnd pos user title description date timestampOf now =>
      match createEvent fuel rnd pos user title description date timestampOf now s with
      | Some c => created_store c
      | None => s
      end
  | HandleJoinEvent user joinCode => (handleJoinEvent user joinCode s).1
  | BarcodeScanned scanned user data => (barcodeScanned scanned user data s).1
  | CreatePost user eventId title description location imageUrl now =>
      (createPost user eventId title description location imageUrl now s).1
  | ClaimPost currentUser id now postId currentClaimedBy postOwnerId postTitle =>
      (claimPost currentUser id now postId currentClaimedBy postOwnerId postTitle s).1
  | PressClaim currentUser id now item => (pressClaim currentUser id now item s).1
  | MarkComplete id postId => (markComplete id postId s).1
  | PressComplete currentUser id item => (pressComplete currentUser id item s).1
  | MarkAsRead notificationId => (markAsRead notificationId s).1
  end.

Definition run (ops : list Op) (s : Store) : Store :=
  foldl (λ s op, exec op s) s ops.

(** * Vocabulary of the statements *)


(** The invariant of the [events] collection: every join code is well formed
    and belongs to one event only. *)
Definition codes_wf (s : Store) : Prop :=
  (∀ k e, events s !! k = Some e → valid_code (Event.joinCode e))
  ∧ (∀ k k' e e', events s !! k = Some e → events s !! k' = Some e' →
                  Event.joinCode e = Event.joinCode e' → k = k').

(** A request that passes the checks of [createEvent]. *)
Definition accepted (r : CreateRequest) : Prop :=
  is_Some (req_user r)
  ∧ JS.blank (req_title r) = false ∧ JS.blank (req_description r) = false
  ∧ JS.blank (req_date r) = false.

(** The outcome of a join by somebody who already attends: the alert, the
    navigation to the event, and the store as it was. *)
Definition already_joined (s : Store) (eventId : string) : Store * list Effect :=
  (s, [Alert "Already Joined" "You're already part of this event!";
       ReplaceEvent eventId]).


(** The store after a partial update of one post. *)
Definition putPost (s : Store) (id postId : string) (p : Post.t) : Store :=
  set_posts (<[id := <[postId := p]> (postsOf s id)]> (posts s)) s.

(** The notification [claimPost] writes for the owner. *)
Definition claimNotification (s : Store) (u : AuthUser.t)
    (id postId postOwnerId postTitle : string) (now : Z) : Notification.t :=
  Notification.mk postOwnerId "claim"
    (claimMessage (lookupDisplayName s (AuthUser.uid u)) (AuthUser.email u) postTitle)
    id postId false now.

(** The post [postId] of event [id] is stored and completed. *)
Definition is_completed (s : Store) (id postId : string) : Prop :=
  ∃ p, postsOf s id !! postId = Some p ∧ Post.completed p = true.

(** * Sample data *)

Definition alice : AuthUser.t := AuthUser.mk "alice" (Some "alice@example.org").
Definition bob : AuthUser.t := AuthUser.mk "bob" (Some "bob@example.org").
Definition carol : AuthUser.t := AuthUser.mk "carol" (Some "carol@example.org").

(** An identity without an email, and without a document under [users]. *)
Definition dave : AuthUser.t := AuthUser.mk "dave" None.

Definition pizza : Post.t :=
  Post.mk "Pizza" "Two boxes left" "Booth 3" None "alice" (Some "Alice")
    (Some "alice@example.org") None None None false 10.

Definition pizza_for_bob : Post.t :=
  Post.with_claim (Some "bob") (Some "Bob") (Some "bob@example.org") pizza.



Definition empty_store : Store := mkStore ∅ ∅ ∅ ∅.

(** Draws 0, 1, 2, ...: the first code drawn is ABCDEF. *)
Definition demo_rnd (k : nat) : nat := k mod 36.

(** Two filled-in forms of signed-in users. *)
Definition demo_requests : list CreateRequest :=
  [ mkCreateRequest 3 (Some alice) "Potluck" "Bring a dish" "2025-11-01" id 100;
    mkCreateRequest 3 (Some bob) "Hackathon" "Leftover snacks" "2025-11-02" id 200 ].

Definition potluck : Event.t :=
  Event.mk "Potluck" "Bring a dish" "2025-11-01" "alice" ["alice"; "bob"]
    "ABC123" 100.

(** A store with one event, attended by Alice and Bob, and one post of
    Alice's. *)
Definition party_store : Store :=
  mkStore
    (<["alice" := UserDoc.mk "Alice" "alice@example.org" 1]>
       (<["bob" := UserDoc.mk "Bob" "bob@example.org" 2]> ∅))
    {["e1" := potluck]}
    {["e1" := {["p1" := pizza]}]}
    ∅.

(** The sample store after Bob claimed the pizza. *)
Definition claimed_store : Store :=
  (pressClaim (Some bob) "e1" 20 ("p1", pizza) party_store).1.

(** The sample store after Bob claimed the pizza and Alice marked it
    complete. *)
Definition completed_store : Store :=
  (pressComplete (Some alice) "e1" ("p1", pizza_for_bob) claimed_store).1.

(** Carol claims from a card that predates the completion, Bob unclaims, Alice
    posts again, Carol joins by code, Alice marks the post complete again. *)
Definition later_ops : list Op :=
  [ PressClaim (Some carol) "e1" 40 ("p1", pizza);
    ClaimPost (Some bob) "e1" 41 "p1" (Some "bob") "alice" "Pizza";
    CreatePost (Some alice) "e1" "Tacos" "Six left" "Booth 3" None 42;
    HandleJoinEvent (Some carol) "abc123";
    MarkComplete "e1" "p1" ].

(** * More of the screens *)

(** ** Strings of the search box *)

Module Str.

(** [toLowerCase] on [JS.ascii_only] text: the letters A-Z are mapped, every
    other character is kept. *)
Definition lower_ascii (c : ascii) : ascii :=
  let n := nat_of_ascii c in
  if (65 <=? n)%nat && (n <=? 90)%nat then ascii_of_nat (n + 32) else c.

Fixpoint toLowerCase (s : string) : string :=
  match s with
  | EmptyString => EmptyString
  | String c r => String (lower_ascii c) (toLowerCase r)
  end.

(** [s.includes(sub)]: [sub] occurs in [s] at some position. *)
Fixpoint includes (s sub : string) : bool :=
  JS.startsWith sub s
  || match s with
     | EmptyString => false
     | String _ r => includes r sub
     end.

End Str.

(** ** The feed of [app/event/[id].tsx] *)

(** The test of the search effect on one post, [query] being the lower-cased
    text of the search box. *)
Definition matchesSearch (query : string) (post : string * Post.t) : bool :=
  Str.includes (Str.toLowerCase (Post.title post.2)) query
  || Str.includes (Str.toLowerCase (Post.description post.2)) query
  || Str.includes (Str.toLowerCase (Post.location post.2)) query.

(** The search effect: the value it gives to [filteredPosts] for the text
    [searchQuery] and the posts of the feed. *)
Definition filteredPosts (searchQuery : string) (posts : list (string * Post.t))
    : list (string * Post.t) :=
  if JS.blank (JS.trim searchQuery) then posts
  else
    let query := Str.toLowerCase searchQuery in
    filter (λ post, matchesSearch query post = true) posts.

(** [renderPost]: the label of the claim button. *)
Definition claimButtonText (currentUser : option AuthUser.t)
    (item : string * Post.t) : string :=
  if isClaimedByMe currentUser item then "Unclaim"
  else if isClaimed item then "Claimed"
  else "Claim".

(** [renderPost]: the name after "Posted by", also the name of a food
    champion: [userName || userEmail || "Anonymous"]. *)
Definition posterName (p : Post.t) : string :=
  JS.to_display
    (JS.or_else (JS.or_else (Post.userName p) (Post.userEmail p)) (Some "Anonymous")).

(** [renderShareTab]: the text of the QR code. *)
Definition qrValue (e : Event.t) : string := "GRUBIO:" +:+ Event.joinCode e.

(** [shareEvent]: the message handed to the share sheet; nothing is shared
    for an event without a join code. *)
Definition shareEvent (e : Event.t) : option string :=
  if JS.blank (Event.joinCode e) then None
  else
    Some ("Join my event " +:+ dquote +:+ Event.title e +:+ dquote
            +:+ " on Grub.io! Use code: " +:+ Event.joinCode e).

(** ** Food champions ([renderAnalyticsTab]) *)

Module Champion.
Record t := mk { count : nat; name : string }.
End Champion.

(** The names every object inherits from [Object.prototype]. *)
Definition objectPrototypeNames : list string :=
  [ "constructor"; "hasOwnProperty"; "isPrototypeOf"; "propertyIsEnumerable";
    "toLocaleString"; "toString"; "valueOf"; "__proto__"; "__defineGetter__";
    "__defineSetter__"; "__lookupGetter__"; "__lookupSetter__" ].

(** A key on which a plain object behaves as a map in insertion order: it
    does not start with a digit, so it is no array index, and it is not an
    inherited name. *)
Definition plain_key (k : string) : bool :=
  match k with
  | EmptyString => true
  | String c _ =>
      negb ((48 <=? nat_of_ascii c)%nat && (nat_of_ascii c <=? 57)%nat)
  end
  && negb (bool_decide (k ∈ objectPrototypeNames)).

(** One round of the [forEach]: the entry of the poster is created with the
    name seen on this post when there is none yet, and its count goes up by
    one.  The object [userPostCounts] is the list of its own entries in
    insertion order, which is what [userPostCounts[k]] and [Object.entries]
    see for keys that are [plain_key]s. *)
Fixpoint countPost (userId userName : string) (m : list (string * Champion.t))
    : list (string * Champion.t) :=
  match m with
  | [] => [(userId, Champion.mk 1 userName)]
  | (k, c) :: m' =>
      if decide (k = userId) then
        (k, Champion.mk (S (Champion.count c)) (Champion.name c)) :: m'
      else (k, c) :: countPost userId userName m'
  end.

Definition userPostCounts (allPosts : list (string * Post.t))
    : list (string * Champion.t) :=
  foldl (λ m post, countPost (Post.userId post.2) (posterName post.2) m) [] allPosts.

(** [sort(([, a], [, b]) => b.count - a.count)]: descending by count, entries
    with equal counts keep their order (the sort is stable). *)
Fixpoint insertChampion (x : string * Champion.t) (l : list (string * Champion.t))
    : list (string * Champion.t) :=
  match l with
  | [] => [x]
  | y :: l' =>
      if (Champion.count x.2 <? Champion.count y.2)%nat then y :: insertChampion x l'
      else x :: l
  end.

Definition sortChampions (l : list (string * Champion.t)) : list (string * Champion.t) :=
  foldr insertChampion [] l.

Definition foodChampions (allPosts : list (string * Post.t)) : list Champion.t :=
  (take 3 (sortChampions (userPostCounts allPosts))).*2.

(** ** The home screen ([src/screens/home-screen.tsx]) *)

(** [getEvents]: the value of the [events] state afterwards, [shown] being
    its value before; without a signed-in user nothing is fetched. *)
Definition getEvents (user : option AuthUser.t) (shown : list (string * Event.t))
    (s : Store) : list (string * Event.t) :=
  match user with
  | None => shown
  | Some u =>
      filter (λ d, AuthUser.uid u ∈ Event.attendees d.2) (docs (events s))
  end.

(** The notification listener of the home screen: [snapshot.size] of the
    query [userId == uid] and [read == false]. *)
Definition unreadCount (uid : string) (s : Store) : nat :=
  length
    (filter (λ d, Notification.userId d.2 = uid ∧ Notification.read d.2 = false)
       (docs (notifications s))).

(** ** The notifications screen ([app/notifications.tsx]) *)

(** [orderBy("createdAt", "desc")] on notifications. *)
Definition latest_first (a b : string * Notification.t) : Prop :=
  (Notification.createdAt b.2 < Notification.createdAt a.2)%Z
  ∨ (Notification.createdAt a.2 = Notification.createdAt b.2 ∧ String.le b.1 a.1).

Global Instance latest_first_dec : RelDecision latest_first.
Proof. intros a b. unfold latest_first. apply _. Defined.

(** The listener of the screen: the notifications addressed to [uid]. *)
Definition notificationsQuery (uid : string) (s : Store)
    : list (string * Notification.t) :=
  merge_sort latest_first
    (filter (λ d, Notification.userId d.2 = uid) (map_to_list (notifications s))).

(** The "N unread" line of the screen. *)
Definition unreadShown (notifications : list (string * Notification.t)) : nat :=
  length (filter (λ n, Notification.read n.2 = false) notifications).

(** [notificationPress]: marks the notification read and opens its event;
    returns the store and the id of the event pushed. *)
Definition notificationPress (item : string * Notification.t) (s : Store)
    : Store * string :=
  ((markAsRead item.1 s).1, Notification.eventId item.2).

(** [formatTimestamp].  [now] is [new Date().getTime()], [seconds] the
    seconds of the timestamp; both times are integers of milliseconds, on
    which [Math.floor(x / n)] is the integer quotient rounded down.
    [localeDate] stands for [toLocaleDateString]. *)
Definition formatTimestamp (localeDate : Z → string) (now seconds : Z) : string :=
  let diffInMs := (now - seconds * 1000)%Z in
  let diffInMins := (diffInMs `div` 60000)%Z in
  let diffInHours := (diffInMs `div` 3600000)%Z in
  let diffInDays := (diffInMs `div` 86400000)%Z in
  if (diffInMins <? 1)%Z then "Just now"
  else if (diffInMins <? 60)%Z then pretty diffInMins +:+ "m ago"
  else if (diffInHours <? 24)%Z then pretty diffInHours +:+ "h ago"
  else if (diffInDays <? 7)%Z then pretty diffInDays +:+ "d ago"
  else localeDate (seconds * 1000)%Z.

(** ** Sign-up ([src/screens/login-screen.tsx]) *)

(** The answer of [createUserWithEmailAndPassword]: the new identity, or an
    error with its code and message. *)
Inductive AuthAnswer :=
| AuthCreated (uid : string)
| AuthError (code message : string).

(** What the sign-up form shows. *)
Inductive FormEffect :=
| FormAlert (title message : string)
| ReplaceHome.  (* router.replace("/home") *)

(** [signUp].  [answer] is what the identity service answers to
    [email.trim()] and the password; [setDoc] writes the user document under
    the new id, replacing one that is there. *)
Definition signUp (isSubmitting : bool) (answer : AuthAnswer)
    (displayName email : string) (now : Z) (s : Store) : Store * list FormEffect :=
  if isSubmitting then (s, [])
  else if JS.blank (JS.trim displayName) then
    (s, [FormAlert "Error" "Please enter your name."])
  else
    match answer with
    | AuthCreated uid =>
        (mkStore
           (<[uid := UserDoc.mk (JS.trim displayName) (JS.trim email) now]> (users s))
           (events s) (posts s) (notifications s),
         [ReplaceHome])
    | AuthError code message =>
        if bool_decide (code = "auth/email-already-in-use") then
          (s, [FormAlert "Error"
                 "That email is already registered. Try logging in instead."])
        else (s, [FormAlert "Error" message])
    end.

(** ** Vocabulary of the further statements *)

(** The invariant of the attendee lists: no user is listed twice and the
    creator is listed. *)
Definition attendees_wf (s : Store) : Prop :=
  ∀ k e, events s !! k = Some e →
         NoDup (Event.attendees e) ∧ Event.createdBy e ∈ Event.attendees e.

(** [e'] is [e] with attendees appended: every other field is the same and
    the attendees of [e] are the first attendees of [e']. *)
Definition event_extends (e e' : Event.t) : Prop :=
  Event.title e' = Event.title e ∧ Event.description e' = Event.description e
  ∧ Event.date e' = Event.date e ∧ Event.createdBy e' = Event.createdBy e
  ∧ Event.joinCode e' = Event.joinCode e ∧ Event.createdAt e' = Event.createdAt e
  ∧ Event.attendees e `prefix_of` Event.attendees e'.

(** [p'] has the content and the author of [p]; the claim and the completion
    may differ. *)
Definition post_same_content (p p' : Post.t) : Prop :=
  Post.title p' = Post.title p ∧ Post.description p' = Post.description p
  ∧ Post.location p' = Post.location p ∧ Post.imageUrl p' = Post.imageUrl p
  ∧ Post.userId p' = Post.userId p ∧ Post.userName p' = Post.userName p
  ∧ Post.userEmail p' = Post.userEmail p ∧ Post.createdAt p' = Post.createdAt p.

(** [n'] is [n], possibly read since. *)
Definition notification_extends (n n' : Notification.t) : Prop :=
  Notification.userId n' = Notification.userId n
  ∧ Notification.type n' = Notification.type n
  ∧ Notification.message n' = Notification.message n
  ∧ Notification.eventId n' = Notification.eventId n
  ∧ Notification.postId n' = Notification.postId n
  ∧ Notification.createdAt n' = Notification.createdAt n
  ∧ (Notification.read n = true → Notification.read n' = true).

(** [sub] occurs in [s]: [s] is some text, then [sub], then some text. *)
Definition occurs_in (sub s : string) : Prop :=
  ∃ before after, s = before +:+ sub +:+ after.

(** The texts of a post that the search reads are ASCII. *)
Definition ascii_post (p : Post.t) : Prop :=
  JS.ascii_only (Post.title p) = true ∧ JS.ascii_only (Post.description p) = true
  ∧ JS.ascii_only (Post.location p) = true.

(** The event [e] with [u] appended to its attendees. *)
Definition joined (u : AuthUser.t) (e : Event.t) : Event.t :=
  Event.with_attendees (Event.attendees e ++ [AuthUser.uid u]) e.

(** The posts of one author, in the order of the listing. *)
Definition postsBy (userId : string) (allPosts : list (string * Post.t))
    : list (string * Post.t) :=
  filter (λ post, Post.userId post.2 = userId) allPosts.

(** What the analytics should say of one author: the number of the author's
    posts, and the name on the first of them in the listing; nothing for a
    user without posts. *)
Definition championOf (userId : string) (allPosts : list (string * Post.t))
    : option Champion.t :=
  match postsBy userId allPosts with
  | [] => None
  | first :: _ => Some (Champion.mk (length (postsBy userId allPosts))
                          (posterName first.2))
  end.

(** [a] has at least as many posts as [b]. *)
Definition at_least_as_many (a b : Champion.t) : Prop :=
  (Champion.count b ≤ Champion.count a)%nat.

(** The position of a character of the alphabet in [chars]: letters first,
    then digits. *)
Definition charIndex (c : ascii) : nat :=
  let n := nat_of_ascii c in
  if (65 <=? n)%nat then n - 65 else n + 26 - 48.

(** ** More sample data *)

Definition erin : AuthUser.t := AuthUser.mk "erin" (Some "erin@example.org").

(** A post of [userId] with the given author name. *)
Definition post_of (userId : string) (userName : option string) (createdAt : Z)
    : Post.t :=
  Post.mk "Snack" "Help yourself" "Booth 1" None userId userName
    (Some (userId +:+ "@example.org")) None None None false createdAt.

(** Seven posts, newest first: three of Bob's, two of Alice's, one of Carol's
    and one of Dave's, who has no display name. *)
Definition ranking_posts : list (string * Post.t) :=
  [ ("p7", post_of "alice" (Some "Alice") 70);
    ("p6", post_of "bob" (Some "Bob") 60);
    ("p5", post_of "carol" (Some "Carol") 50);
    ("p4", post_of "bob" (Some "Bobby") 40);
    ("p3", post_of "dave" None 30);
    ("p2", post_of "alice" (Some "Alice") 20);
    ("p1", post_of "bob" (Some "Robert") 10) ].

(** The notification Alice gets when Bob claims the pizza. *)
Definition bobs_claim_notice : Notification.t :=
  claimNotification party_store bob "e1" "p1" "alice" "Pizza" 20.

(** * Properties *)

(** ** Analytics *)

Section Analytics.
Implicit Types allPosts : list (string * Post.t).








(** With 40 posts the spec's formula and the code part: 23 claimed posts out
    of 40 give 57.49999999999999 before [Math.round], hence 57, where exact
    arithmetic gives 57.5, hence 58. *)
Remark percentSaved_23_of_40 :
  Math_round (SFmul prec emax (SFdiv prec emax (num 23) (num 40)) (num 100))
  = num 57
  ∧ percentSaved_exact 23 40 = 58%Z.
Proof. by vm_compute. Qed.

End Analytics.



(** ** Join-code allocation *)

Section JoinCodes.
Implicit Types (s : Store) (code : string).

Lemma length_append (a b : string) :
  String.length (a +:+ b) = String.length a + String.length b.
Proof. induction a as [|c a IH]; simpl; [done | by rewrite IH]. Qed.

Lemma all_chars_append p (a b : string) :
  all_chars p (a +:+ b) = all_chars p a && all_chars p b.
Proof.
  induction a as [|c a IH]; simpl; [done|].
  by rewrite IH, andb_assoc.
Qed.

(** An index below [chars.length] selects one character of the alphabet. *)
Lemma charAt_chars (i : nat) :
  i < 36 → ∃ c, JS.charAt chars i = String c EmptyString ∧ code_char c = true.
Proof.
  intros Hi.
  do 36 (destruct i as [|i]; [eexists; split; reflexivity|]).
  lia.
Qed.

Lemma generateJoinCode_loop_valid rnd pos i code :
  (∀ k, rnd k < 36) →
  all_chars code_char code = true →
  String.length (generateJoinCode_loop rnd pos i code) = String.length code + i
  ∧ all_chars code_char (generateJoinCode_loop rnd pos i code) = true.
Proof.
  intros Hrnd. revert pos code.
  induction i as [|i IH]; intros pos code Hcode; cbn [generateJoinCode_loop].
  - split; [lia | done].
  - destruct (charAt_chars (rnd pos) (Hrnd pos)) as (c & Hc & Hcc).
    destruct (IH (S pos) (code +:+ JS.charAt chars (rnd pos))) as [Hlen Hall].
    + rewrite all_chars_append, Hcode, Hc. simpl. by rewrite Hcc.
    + split; [|done].
      rewrite Hlen, length_append, Hc. simpl. lia.
Qed.

Lemma generateJoinCode_valid rnd pos :
  (∀ k, rnd k < 36) → valid_code (generateJoinCode rnd pos).1.
Proof.
  intros Hrnd. unfold generateJoinCode, valid_code. simpl.
  by destruct (generateJoinCode_loop_valid rnd pos 6 EmptyString Hrnd).
Qed.

Lemma elem_of_docs {A} (m : gmap string A) (d : string * A) :
  d ∈ docs m ↔ m !! d.1 = Some d.2.
Proof.
  unfold docs. rewrite merge_sort_Permutation. apply elem_of_map_to_list'.
Qed.

Lemma elem_of_eventsByJoinCode s code (d : string * Event.t) :
  d ∈ eventsByJoinCode s code
  ↔ events s !! d.1 = Some d.2 ∧ Event.joinCode d.2 = code.
Proof.
  unfold eventsByJoinCode. rewrite list_elem_of_filter, elem_of_docs. tauto.
Qed.


(** [query] is the first name of the body that the module does not bind:
    every call of [isJoinCodeUnique] throws there, whatever the code and the
    store. *)
Lemma isJoinCodeUnique_throws s code :
  isJoinCodeUnique s code = JS.Throw (JS.ReferenceError "query").
Proof. reflexivity. Qed.

(** The check of the first code throws, so the loop is never entered: six
    draws are made and no code is returned, whatever the fuel. *)
Lemma allocateJoinCode_throws fuel rnd pos s :
  allocateJoinCode fuel rnd pos s
  = Some (JS.Throw (JS.ReferenceError "query"), pos + 6).
Proof. reflexivity. Qed.

End JoinCodes.

Section CreateEvents.
Implicit Types (s : Store) (code : string).

Lemma addDoc_fresh {A} (m : gmap string A) (d : A) :
  m !! (addDoc m d).1 = None ∧ (addDoc m d).2 = <[(addDoc m d).1 := d]> m.
Proof.
  unfold addDoc. simpl. split; [|done].
  apply not_elem_of_dom, is_fresh.
Qed.

(** [createEvent] returns, for any fuel, and writes nothing: a form that is
    not filled in or a missing user is turned down, and every other call ends
    in the [catch] of the ReferenceError. *)
Lemma createEvent_writes_nothing fuel rnd pos user title description date
    timestampOf now s :
  ∃ c, createEvent fuel rnd pos user title description date timestampOf now s = Some c
       ∧ created_store c = s ∧ created_code c = None
       ∧ ∀ docId, ReplaceEvent docId ∉ created_effects c.
Proof.
  unfold createEvent. destruct user as [u|].
  - destruct (JS.blank title || JS.blank description || JS.blank date).
    + eexists. split; [done|]. repeat split.
      intros docId [?|?%not_elem_of_nil]%elem_of_cons; done.
    + rewrite allocateJoinCode_throws. eexists. split; [done|]. repeat split.
      intros docId [?|?%not_elem_of_nil]%elem_of_cons; done.
  - eexists. split; [done|]. repeat split.
    intros docId [?|?%not_elem_of_nil]%elem_of_cons; done.
Qed.

Lemma createEvent_store fuel rnd pos user title description date timestampOf now s c :
  createEvent fuel rnd pos user title description date timestampOf now s = Some c →
  created_store c = s.
Proof.
  destruct (createEvent_writes_nothing fuel rnd pos user title description date
              timestampOf now s) as (c' & -> & Hs & _).
  by intros [= <-].
Qed.

Lemma exec_CreateEvent fuel rnd pos user title description date timestampOf now s :
  exec (CreateEvent fuel rnd pos user title description date timestampOf now) s = s.
Proof.
  cbn [exec].
  by destruct (createEvent_writes_nothing fuel rnd pos user title description date
                 timestampOf now s) as (c & -> & -> & _).
Qed.

(** A filled-in form of a signed-in user: the error is shown, and that is
    all. *)
Lemma createEvent_accepted fuel rnd pos u title description date timestampOf now s :
  JS.blank title = false → JS.blank description = false → JS.blank date = false →
  createEvent fuel rnd pos (Some u) title description date timestampOf now s
  = Some (mkCreated s (pos + 6) [AlertError (JS.ReferenceError "query")] None).
Proof. intros Ht Hd Hdt. unfold createEvent. by rewrite Ht, Hd, Hdt. Qed.

Lemma createEvents_no_code rnd reqs pos s :
  createEvents rnd pos reqs s = Some (s, []).
Proof.
  revert pos. induction reqs as [|r reqs IH]; intros pos; cbn [createEvents]; [done|].
  destruct (createEvent_writes_nothing (req_fuel r) rnd pos (req_user r)
              (req_title r) (req_description r) (req_date r) (req_timestampOf r)
              (req_now r) s) as (c & -> & -> & -> & _).
  by rewrite IH.
Qed.

(** C2. The code does not do what the claim says.  [isJoinCodeUnique] uses
    [query], [where] and [getDocs], which [app/create-event.tsx] does not
    import: its first call throws, [createEvent] shows the error and stores
    nothing.  So event creations carried out one after the other, each from
    a filled-in form of a signed-in user, produce no join code at all and
    leave the store as it was, where the claim has one distinct code for
    each of them. *)
Theorem no_join_code_is_produced rnd pos reqs s :
  Forall accepted reqs →
  createEvents rnd pos reqs s = Some (s, [])
  ∧ Forall (λ r, ∀ pos s,
              createEvent (req_fuel r) rnd pos (req_user r) (req_title r)
                (req_description r) (req_date r) (req_timestampOf r) (req_now r) s
              = Some (mkCreated s (pos + 6)
                        [AlertError (JS.ReferenceError "query")] None))
      reqs.
Proof.
  intros Hacc. split.
  - apply createEvents_no_code.
  - eapply Forall_impl; [exact Hacc|].
    intros r ([u Hu] & Ht & Hd & Hdt) pos0 s0. rewrite Hu.
    by apply createEvent_accepted.
Qed.

End CreateEvents.

(** *** Join codes stay well formed and distinct *)

Section CodesInvariant.
Implicit Types (s : Store) (u : AuthUser.t).

Lemma codes_wf_empty : codes_wf empty_store.
Proof. split; intros k; intros; simplify_map_eq. Qed.

(** Replacing an event by one with the same code. *)
Lemma codes_wf_update s k0 e0 e1 :
  events s !! k0 = Some e0 →
  Event.joinCode e1 = Event.joinCode e0 →
  codes_wf s → codes_wf (set_events (<[k0 := e1]> (events s)) s).
Proof.
  intros He0 Hsame [Hv Hu]. split; cbn [events set_events].
  - intros k e [[<- <-]|[Hne He]]%lookup_insert_Some; [|eauto].
    rewrite Hsame. eauto.
  - intros k k' e e' [[<- <-]|[Hne He]]%lookup_insert_Some
                     [[<- <-]|[Hne' He']]%lookup_insert_Some Hc; try done.
    + rewrite Hsame in Hc. eauto.
    + rewrite Hsame in Hc. eauto.
    + eauto.
Qed.

Lemma codes_wf_same_events s s' : events s' = events s → codes_wf s → codes_wf s'.
Proof. unfold codes_wf. by intros ->. Qed.

Lemma updateDoc_join_codes_wf s eventId u ev :
  updateDoc (events s) eventId (join u) = Some ev →
  codes_wf s → codes_wf (set_events ev s).
Proof.
  unfold updateDoc. destruct (events s !! eventId) as [e0|] eqn:He0; [|done].
  intros [= <-]. by apply (codes_wf_update s eventId e0).
Qed.

Lemma updatePost_events s id postId f s' :
  updatePost s id postId f = Some s' → events s' = events s.
Proof.
  unfold updatePost. destruct (updateDoc _ _ _); [|done]. by intros [= <-].
Qed.

Lemma claimPost_events currentUser id now postId currentClaimedBy postOwnerId
    postTitle s :
  events (claimPost currentUser id now postId currentClaimedBy postOwnerId
            postTitle s).1
  = events s.
Proof.
  unfold claimPost. destruct currentUser as [u|]; [|done].
  destruct (JS.strict_eq _ _);
    (destruct (updatePost s id postId _) as [s'|] eqn:Hup; [|done]);
    apply updatePost_events in Hup; [done|].
  by destruct (bool_decide _).
Qed.

Lemma markComplete_events id postId s : events (markComplete id postId s).1 = events s.
Proof.
  unfold markComplete.
  destruct (updatePost s id postId _) as [s'|] eqn:Hup; [|done].
  by apply updatePost_events in Hup.
Qed.

(** Every handler keeps the invariant. *)
Lemma exec_codes_wf op s : codes_wf s → codes_wf (exec op s).
Proof.
  intros Hwf. destruct op; try rewrite exec_CreateEvent; cbn [exec] in *.
  - done.
  - unfold handleJoinEvent. destruct user as [u|]; [|done].
    destruct (JS.blank _); [done|].
    destruct (eventsByJoinCode s _) as [|[k e] ?]; [done|].
    destruct (JS.includes _ _); [done|].
    destruct (updateDoc _ _ _) as [ev|] eqn:Hup; [|done].
    by apply (updateDoc_join_codes_wf s k u).
  - unfold barcodeScanned. destruct scanned; [done|]. destruct user as [u|]; [|done].
    destruct (eventsByJoinCode s _) as [|[k e] ?]; [done|].
    destruct (JS.includes _ _); [done|].
    destruct (updateDoc _ _ _) as [ev|] eqn:Hup; [|done].
    by apply (updateDoc_join_codes_wf s k u).
  - unfold createPost. destruct user as [u|]; [|done].
    destruct (_ || _); [done|]. by destruct (addDoc _ _).
  - eapply codes_wf_same_events; [|done]. apply claimPost_events.
  - unfold pressClaim. destruct (claimButton _ _); try done.
    eapply codes_wf_same_events; [|done]. apply claimPost_events.
  - eapply codes_wf_same_events; [|done]. apply markComplete_events.
  - unfold pressComplete. destruct (completeButton _ _); try done.
    eapply codes_wf_same_events; [|done]. apply markComplete_events.
  - unfold markAsRead. by destruct (updateDoc _ _ _).
Qed.

(** Every store the handlers build from a store that satisfies the invariant
    satisfies it. *)
Lemma run_codes_wf ops s : codes_wf s → codes_wf (run ops s).
Proof.
  unfold run. revert s.
  induction ops as [|op ops IH]; intros s Hwf; [done|].
  apply IH. by apply exec_codes_wf.
Qed.

End CodesInvariant.

(** *** Two creations *)

Lemma demo_requests_accepted : Forall accepted demo_requests.
Proof. repeat constructor; by eexists. Defined.

Lemma no_join_code_is_produced_witness :
  createEvents demo_rnd 0 demo_requests empty_store = Some (empty_store, [])
  ∧ createEvent 3 demo_rnd 0 (Some alice) "Potluck" "Bring a dish" "2025-11-01" id
      100 empty_store
    = Some (mkCreated empty_store 6 [AlertError (JS.ReferenceError "query")] None).
Proof.
  destruct (no_join_code_is_produced demo_rnd 0 demo_requests empty_store
              demo_requests_accepted) as [Hall Heach].
  split; [exact Hall|].
  apply Forall_cons in Heach as [Hfirst _]. exact (Hfirst 0 empty_store).
Defined.

(** ** Joining an event *)

Section Join.
Implicit Types (s : Store) (code : string) (u : AuthUser.t).

Lemma code_char_not_space c : code_char c = true → JS.is_space c = false.
Proof.
  unfold code_char, JS.is_space.
  generalize (nat_of_ascii c). intros n.
  rewrite orb_true_iff, !andb_true_iff, !Nat.leb_le.
  intros Hn. apply orb_false_iff. rewrite andb_false_iff, !Nat.leb_gt, Nat.eqb_neq.
  lia.
Qed.

Lemma code_char_upper c : code_char c = true → JS.upper_ascii c = c.
Proof.
  unfold code_char, JS.upper_ascii.
  generalize (nat_of_ascii c) at 1 2 3 4 5 6. intros n.
  rewrite orb_true_iff, !andb_true_iff, !Nat.leb_le. intros Hn.
  destruct (Nat.leb_spec 97 n); [|done].
  destruct (Nat.leb_spec n 122); simpl; [lia | done].
Qed.

Lemma toUpperCase_code code :
  all_chars code_char code = true → JS.toUpperCase code = code.
Proof.
  induction code as [|c r IH]; simpl; [done|].
  intros [Hc Hr]%andb_true_iff. by rewrite code_char_upper, IH.
Qed.

Lemma trimEnd_code code :
  all_chars code_char code = true → JS.trimEnd code = code.
Proof.
  induction code as [|c r IH]; simpl; [done|].
  intros [Hc Hr]%andb_true_iff. rewrite (IH Hr), (code_char_not_space c Hc).
  by destruct r.
Qed.

Lemma trim_code code :
  all_chars code_char code = true → JS.trim code = code.
Proof.
  intros Hall. unfold JS.trim.
  destruct code as [|c r]; [done|].
  simpl in Hall. apply andb_true_iff in Hall as [Hc Hr].
  cbn [JS.trimStart]. rewrite (code_char_not_space c Hc).
  apply trimEnd_code. simpl. by rewrite Hc, Hr.
Qed.

Lemma startsWith_length (p t : string) :
  JS.startsWith p t = true → (String.length p ≤ String.length t)%nat.
Proof.
  revert t. induction p as [|a p IH]; intros [|b t]; simpl; try done; [lia|].
  intros [_ Hp]%andb_true_iff. specialize (IH _ Hp). lia.
Qed.

(** The code the scanner extracts from the payload the Share tab renders. *)
Lemma qr_payload code : JS.substring 7 ("GRUBIO:" +:+ code) = code.
Proof. reflexivity. Qed.

(** With a join code that identifies one event, the lookup returns that event
    first. *)
Lemma eventsByJoinCode_unique s eventId e :
  events s !! eventId = Some e →
  (∀ k e', events s !! k = Some e' →
           Event.joinCode e' = Event.joinCode e → k = eventId) →
  ∃ rest, eventsByJoinCode s (Event.joinCode e) = (eventId, e) :: rest.
Proof.
  intros He Huniq.
  destruct (eventsByJoinCode s (Event.joinCode e)) as [|[k e'] rest] eqn:Hq.
  - assert (Hin : (eventId, e) ∈ eventsByJoinCode s (Event.joinCode e))
      by (by apply elem_of_eventsByJoinCode).
    rewrite Hq in Hin. by apply not_elem_of_nil in Hin.
  - assert (Hin : (k, e') ∈ eventsByJoinCode s (Event.joinCode e))
      by (rewrite Hq; left).
    apply elem_of_eventsByJoinCode in Hin as [Hk Hc]. simpl in Hk, Hc.
    assert (k = eventId) as -> by eauto.
    exists rest. congruence.
Qed.


(** Typed input that normalises to the code of an event the user attends. *)
Lemma handleJoinEvent_member s eventId e u input :
  events s !! eventId = Some e →
  (∀ k e', events s !! k = Some e' →
           Event.joinCode e' = Event.joinCode e → k = eventId) →
  AuthUser.uid u ∈ Event.attendees e →
  JS.blank (JS.trim input) = false →
  JS.toUpperCase (JS.trim input) = Event.joinCode e →
  handleJoinEvent (Some u) input s = already_joined s eventId.
Proof.
  intros He Huniq Hin Hblank Hnorm. unfold handleJoinEvent.
  rewrite Hblank, Hnorm.
  destruct (eventsByJoinCode_unique s eventId e He Huniq) as [rest ->].
  unfold JS.includes. by rewrite bool_decide_eq_true_2.
Qed.

(** A scanned payload that normalises to the code of an event the user
    attends. *)
Lemma barcodeScanned_member s eventId e u data :
  events s !! eventId = Some e →
  (∀ k e', events s !! k = Some e' →
           Event.joinCode e' = Event.joinCode e → k = eventId) →
  AuthUser.uid u ∈ Event.attendees e →
  JS.toUpperCase (if JS.startsWith "GRUBIO:" data then JS.substring 7 data else data)
  = Event.joinCode e →
  barcodeScanned false (Some u) data s = already_joined s eventId.
Proof.
  intros He Huniq Hin Hnorm. unfold barcodeScanned.
  rewrite Hnorm.
  destruct (eventsByJoinCode_unique s eventId e He Huniq) as [rest ->].
  unfold JS.includes. by rewrite bool_decide_eq_true_2.
Qed.

(** C5. In a store whose join codes are well formed and distinct (the
    invariant the handlers keep), a user who already attends an event and
    joins it again with the event's join code, typed or scanned (as the bare
    code or as the QR payload GRUBIO:<code>), is told so and sent to the
    event, and the store, hence the attendees of every event, is left as it
    was. *)
Theorem join_idempotent s eventId e u :
  codes_wf s →
  events s !! eventId = Some e →
  AuthUser.uid u ∈ Event.attendees e →
  handleJoinEvent (Some u) (Event.joinCode e) s = already_joined s eventId
  ∧ barcodeScanned false (Some u) (Event.joinCode e) s = already_joined s eventId
  ∧ barcodeScanned false (Some u) ("GRUBIO:" +:+ Event.joinCode e) s
    = already_joined s eventId.
Proof.
  intros [Hvalid Hdistinct] He Hin.
  destruct (Hvalid _ _ He) as [Hlen Hall].
  assert (Huniq : ∀ k e', events s !! k = Some e' →
                          Event.joinCode e' = Event.joinCode e → k = eventId)
    by (intros k e' He' Hc; by apply (Hdistinct k eventId e' e)).
  pose proof (toUpperCase_code _ Hall) as Hup.
  pose proof (trim_code _ Hall) as Htrim.
  split; [|split].
  - apply (handleJoinEvent_member s eventId e); try done.
    + rewrite Htrim. by destruct (Event.joinCode e).
    + by rewrite Htrim.
  - apply (barcodeScanned_member s eventId e); try done.
    destruct (JS.startsWith "GRUBIO:" (Event.joinCode e)) eqn:Hpre; [|done].
    apply startsWith_length in Hpre. simpl in Hpre. lia.
  - apply (barcodeScanned_member s eventId e); try done.
Qed.

End Join.

(** *** A store with one event *)

Lemma party_store_wf : codes_wf party_store.
Proof.
  unfold party_store, codes_wf. cbn [events]. split.
  - intros k e [_ <-]%lookup_singleton_Some. split; reflexivity.
  - intros k k' e e' [<- _]%lookup_singleton_Some [<- _]%lookup_singleton_Some _.
    reflexivity.
Defined.

Lemma join_idempotent_witness :
  handleJoinEvent (Some bob) "ABC123" party_store = already_joined party_store "e1"
  ∧ barcodeScanned false (Some bob) "ABC123" party_store
    = already_joined party_store "e1"
  ∧ barcodeScanned false (Some bob) "GRUBIO:ABC123" party_store
    = already_joined party_store "e1".
Proof.
  apply (join_idempotent party_store "e1" potluck bob).
  - exact party_store_wf.
  - reflexivity.
  - unfold potluck, bob. simpl. set_solver.
Defined.

Section JoinNotFound.
Implicit Types (s : Store) (u : AuthUser.t).


End JoinNotFound.




(** ** The claim lifecycle *)

Section Claims.
Implicit Types (s : Store) (u : AuthUser.t) (p : Post.t) (item : string * Post.t).

Lemma updatePost_Some s id postId f p :
  postsOf s id !! postId = Some p →
  updatePost s id postId f = Some (putPost s id postId (f p)).
Proof. intros Hp. unfold updatePost, updateDoc. by rewrite Hp. Qed.

Lemma updatePost_None s id postId f :
  postsOf s id !! postId = None → updatePost s id postId f = None.
Proof. intros Hp. unfold updatePost, updateDoc. by rewrite Hp. Qed.

Lemma postsOf_putPost s id postId p id' :
  postsOf (putPost s id postId p) id'
  = if decide (id = id') then <[postId := p]> (postsOf s id) else postsOf s id'.
Proof.
  unfold putPost, postsOf at 1. simpl.
  destruct (decide (id = id')) as [->|Hne].
  - by rewrite lookup_insert_eq.
  - by rewrite lookup_insert_ne.
Qed.

Lemma lookup_putPost s id postId p :
  postsOf (putPost s id postId p) id !! postId = Some p.
Proof.
  rewrite postsOf_putPost. rewrite decide_True by done. apply lookup_insert_eq.
Qed.

(** The claim branch of [claimPost] on a post that exists. *)
Lemma claimPost_claim s id now u postId currentClaimedBy postOwnerId postTitle p :
  postsOf s id !! postId = Some p →
  currentClaimedBy ≠ Some (AuthUser.uid u) →
  let s1 :=
    putPost s id postId
      (Post.with_claim (Some (AuthUser.uid u))
         (lookupDisplayName s (AuthUser.uid u)) (AuthUser.email u) p) in
  claimPost (Some u) id now postId currentClaimedBy postOwnerId postTitle s
  = if bool_decide (postOwnerId ≠ AuthUser.uid u) then
      (set_notifications
         (<[fresh (dom (notifications s)) :=
              claimNotification s u id postId postOwnerId postTitle now]>
            (notifications s)) s1, [])
    else (s1, []).
Proof.
  intros Hp Hother. unfold claimPost, JS.strict_eq.
  rewrite bool_decide_eq_false_2 by done.
  rewrite (updatePost_Some _ _ _ _ _ Hp).
  by destruct (bool_decide (postOwnerId ≠ AuthUser.uid u)).
Qed.

(** The unclaim branch of [claimPost] on a post that exists. *)
Lemma claimPost_unclaim s id now u postId postOwnerId postTitle p :
  postsOf s id !! postId = Some p →
  claimPost (Some u) id now postId (Some (AuthUser.uid u)) postOwnerId postTitle s
  = (putPost s id postId (Post.with_claim None None None p),
     [Alert "Unclaimed" "You've unclaimed this item."]).
Proof.
  intros Hp. unfold claimPost, JS.strict_eq.
  rewrite bool_decide_eq_true_2 by done.
  by rewrite (updatePost_Some _ _ _ _ _ Hp).
Qed.

(** What the claim button does on a card that shows an unclaimed post of
    somebody else. *)
Lemma pressClaim_unclaimed s id now u item :
  Post.userId item.2 ≠ AuthUser.uid u →
  JS.truthy (Post.claimedBy item.2) = false →
  pressClaim (Some u) id now item s
  = claimPost (Some u) id now item.1 None (Post.userId item.2) (Post.title item.2) s.
Proof.
  intros Howner Hfree. unfold pressClaim, claimButton, isOwner, isClaimed.
  rewrite bool_decide_eq_false_2 by done.
  rewrite Hfree. simpl. unfold JS.or_else. by rewrite Hfree.
Qed.

(** What the claim button does on a card that shows the user's own claim. *)
Lemma pressClaim_mine s id now u item :
  AuthUser.uid u ≠ EmptyString →
  Post.userId item.2 ≠ AuthUser.uid u →
  Post.claimedBy item.2 = Some (AuthUser.uid u) →
  pressClaim (Some u) id now item s
  = claimPost (Some u) id now item.1 (Some (AuthUser.uid u)) (Post.userId item.2)
      (Post.title item.2) s.
Proof.
  intros Huid Howner Hmine.
  unfold pressClaim, claimButton, isOwner, isClaimed, isClaimedByMe, JS.strict_eq.
  rewrite bool_decide_eq_false_2 by done.
  rewrite (bool_decide_eq_true_2 _ Hmine), andb_false_r.
  rewrite Hmine. unfold JS.or_else.
  by destruct (AuthUser.uid u).
Qed.

(** C3. A user who is not the owner claims an unclaimed post and then presses
    the button again on the card of the post as claimed: the first press
    stores the user as claimant, the second resets [claimedBy] (and the
    claimant's name and email) to null, and every other field of the post is
    as it was. *)
Theorem claim_then_unclaim s id now now' u item :
  AuthUser.uid u ≠ EmptyString →
  postsOf s id !! item.1 = Some item.2 →
  Post.userId item.2 ≠ AuthUser.uid u →
  JS.truthy (Post.claimedBy item.2) = false →
  let claimed :=
    Post.with_claim (Some (AuthUser.uid u))
      (lookupDisplayName s (AuthUser.uid u)) (AuthUser.email u) item.2 in
  let s1 := (pressClaim (Some u) id now item s).1 in
  let s2 := (pressClaim (Some u) id now' (item.1, claimed) s1).1 in
  postsOf s1 id !! item.1 = Some claimed
  ∧ Post.claimedBy claimed = Some (AuthUser.uid u)
  ∧ postsOf s2 id !! item.1 = Some (Post.with_claim None None None item.2)
  ∧ Post.claimedBy (Post.with_claim None None None item.2) = None.
Proof.
  intros Huid Hp Howner Hfree claimed s1 s2.
  assert (Hs1 : postsOf s1 id !! item.1 = Some claimed).
  { subst s1. rewrite pressClaim_unclaimed by done.
    rewrite (claimPost_claim _ _ _ _ _ _ _ _ _ Hp) by done.
    destruct (bool_decide _); simpl; apply lookup_putPost. }
  split; [done|]. split; [done|]. split; [|done].
  subst s2. rewrite pressClaim_mine by done.
  cbn [fst snd]. rewrite (claimPost_unclaim _ _ _ _ _ _ _ _ Hs1).
  cbn [fst]. by rewrite lookup_putPost.
Qed.

End Claims.

Section Notifications.
Implicit Types (s : Store) (u a b : AuthUser.t) (item : string * Post.t).

Lemma fresh_notification s : notifications s !! fresh (dom (notifications s)) = None.
Proof. apply not_elem_of_dom, is_fresh. Qed.

(** C4. On a card that shows a stored post: a claim of the unclaimed post by a
    user other than the owner adds exactly one notification document, and its
    [userId] is the owner; the owner has no claim button, and [claimPost]
    called by the owner on the own post writes no notification either; an
    unclaim writes no notification. *)
Theorem claim_notification_targeting s id now item :
  postsOf s id !! item.1 = Some item.2 →
  (∀ b, Post.userId item.2 ≠ AuthUser.uid b →
        JS.truthy (Post.claimedBy item.2) = false →
        ∃ notificationId n,
          notifications s !! notificationId = None
          ∧ notifications (pressClaim (Some b) id now item s).1
            = <[notificationId := n]> (notifications s)
          ∧ Notification.userId n = Post.userId item.2)
  ∧ (∀ a, Post.userId item.2 = AuthUser.uid a →
          pressClaim (Some a) id now item s = (s, [])
          ∧ ∀ currentClaimedBy,
              notifications
                (claimPost (Some a) id now item.1 currentClaimedBy
                   (Post.userId item.2) (Post.title item.2) s).1
              = notifications s)
  ∧ (∀ b, AuthUser.uid b ≠ EmptyString →
          Post.claimedBy item.2 = Some (AuthUser.uid b) →
          notifications (pressClaim (Some b) id now item s).1 = notifications s).
Proof.
  intros Hp. split; [|split].
  - intros b Howner Hfree.
    rewrite pressClaim_unclaimed by done.
    rewrite (claimPost_claim _ _ _ _ _ _ _ _ _ Hp) by done.
    rewrite bool_decide_eq_true_2 by done.
    eexists _, _. split; [apply fresh_notification|]. by split.
  - intros a Howner. split.
    + unfold pressClaim, claimButton, isOwner.
      by rewrite bool_decide_eq_true_2.
    + intros cb. destruct (decide (cb = Some (AuthUser.uid a))) as [->|Hcb].
      * by rewrite (claimPost_unclaim _ _ _ _ _ _ _ _ Hp).
      * rewrite (claimPost_claim _ _ _ _ _ _ _ _ _ Hp) by done.
        rewrite bool_decide_eq_false_2; [done|]. by intros Hne.
  - intros b Huid Hmine.
    destruct (decide (Post.userId item.2 = AuthUser.uid b)) as [Howner|Howner].
    + unfold pressClaim, claimButton, isOwner.
      by rewrite bool_decide_eq_true_2.
    + rewrite pressClaim_mine by done.
      by rewrite (claimPost_unclaim _ _ _ _ _ _ _ _ Hp).
Qed.

(** C7, as amended. When the card the user sees shows a claimant other than
    the user, the claim button does nothing: no document is written, so the
    claimant stored for the post stays. *)
Theorem claim_disabled_for_others s id now u item :
  JS.truthy (Post.claimedBy item.2) = true →
  Post.claimedBy item.2 ≠ Some (AuthUser.uid u) →
  claimButton (Some u) item ≠ Enabled
  ∧ pressClaim (Some u) id now item s = (s, []).
Proof.
  intros Hclaimed Hother.
  unfold pressClaim, claimButton, isClaimed, isClaimedByMe, JS.strict_eq.
  rewrite Hclaimed, (bool_decide_eq_false_2 _ Hother). cbn [andb negb].
  by destruct (isOwner (Some u) item).
Qed.

(** C8, as amended. The claim of an existing post by a user other than the
    owner writes a notification whose message starts with the claimant's
    display name when the user document has a non-empty one, and with the
    claimant's email when it has not and the identity carries an email. *)
Theorem claim_message_name_then_email s id now u postId currentClaimedBy
    postOwnerId postTitle p :
  postsOf s id !! postId = Some p →
  currentClaimedBy ≠ Some (AuthUser.uid u) →
  postOwnerId ≠ AuthUser.uid u →
  ∃ notificationId n,
    notifications s !! notificationId = None
    ∧ notifications
        (claimPost (Some u) id now postId currentClaimedBy postOwnerId postTitle s).1
      = <[notificationId := n]> (notifications s)
    ∧ (∀ name, lookupDisplayName s (AuthUser.uid u) = Some name →
               name ≠ EmptyString →
               Notification.message n
               = name +:+ " claimed your " +:+ dquote +:+ postTitle +:+ dquote)
    ∧ (∀ mail, JS.truthy (lookupDisplayName s (AuthUser.uid u)) = false →
               AuthUser.email u = Some mail →
               Notification.message n
               = mail +:+ " claimed your " +:+ dquote +:+ postTitle +:+ dquote).
Proof.
  intros Hp Hcb Howner.
  rewrite (claimPost_claim _ _ _ _ _ _ _ _ _ Hp) by done.
  rewrite bool_decide_eq_true_2 by done.
  eexists _, _. split; [apply fresh_notification|]. split; [done|].
  unfold claimNotification, claimMessage, JS.or_else. simpl. split.
  - intros name -> Hname. by destruct name.
  - by intros mail -> ->.
Qed.

End Notifications.

(** *** Claims on the sample store *)

Lemma claim_then_unclaim_witness :
  postsOf claimed_store "e1" !! "p1" = Some pizza_for_bob
  ∧ Post.claimedBy pizza_for_bob = Some "bob"
  ∧ postsOf (pressClaim (Some bob) "e1" 30 ("p1", pizza_for_bob) claimed_store).1 "e1"
      !! "p1"
    = Some (Post.with_claim None None None pizza)
  ∧ Post.claimedBy (Post.with_claim None None None pizza) = None.
Proof.
  apply (claim_then_unclaim party_store "e1" 20 30 bob ("p1", pizza)).
  - discriminate.
  - reflexivity.
  - discriminate.
  - reflexivity.
Defined.

Lemma claim_notification_targeting_witness :
  ∃ notificationId n,
    notifications party_store !! notificationId = None
    ∧ notifications claimed_store = <[notificationId := n]> (notifications party_store)
    ∧ Notification.userId n = "alice".
Proof.
  apply (proj1 (claim_notification_targeting party_store "e1" 20 ("p1", pizza)
                  eq_refl) bob).
  - discriminate.
  - reflexivity.
Defined.

Lemma claim_disabled_for_others_witness :
  claimButton (Some carol) ("p1", pizza_for_bob) ≠ Enabled
  ∧ pressClaim (Some carol) "e1" 30 ("p1", pizza_for_bob) claimed_store
    = (claimed_store, []).
Proof.
  apply (claim_disabled_for_others claimed_store "e1" 30 carol ("p1", pizza_for_bob)).
  - reflexivity.
  - discriminate.
Defined.

(** Carol's screen still shows the card as it was before Bob's claim: the
    button is enabled and her claim replaces Bob's. *)
Lemma stale_card_overwrites_claimant :
  Post.claimedBy <$> postsOf claimed_store "e1" !! "p1" = Some (Some "bob")
  ∧ Post.claimedBy
      <$> postsOf (pressClaim (Some carol) "e1" 30 ("p1", pizza) claimed_store).1 "e1"
            !! "p1"
    = Some (Some "carol").
Proof. split; vm_compute; reflexivity. Qed.

Lemma claim_message_name_then_email_witness :
  ∃ notificationId n,
    notifications claimed_store = <[notificationId := n]> (notifications party_store)
    ∧ Notification.message n = "Bob claimed your " +:+ dquote +:+ "Pizza" +:+ dquote.
Proof.
  destruct (claim_message_name_then_email party_store "e1" 20 bob "p1" None
              "alice" "Pizza" pizza) as (k & n & _ & Hn & Hname & _).
  - reflexivity.
  - discriminate.
  - discriminate.
  - exists k, n. split.
    + exact Hn.
    + apply (Hname "Bob"); [reflexivity | discriminate].
Defined.

(** Neither a display name nor an email: the message starts with "null", not
    with "Anonymous". *)
Lemma claim_message_without_name_or_email :
  ∃ n,
    (map_to_list
       (notifications (pressClaim (Some dave) "e1" 20 ("p1", pizza) party_store).1)).*2
    = [n]
    ∧ Notification.userId n = "alice"
    ∧ Notification.message n = "null claimed your " +:+ dquote +:+ "Pizza" +:+ dquote
    ∧ Notification.message n
      ≠ "Anonymous claimed your " +:+ dquote +:+ "Pizza" +:+ dquote.
Proof.
  eexists. split; [vm_compute; reflexivity|].
  split; [reflexivity|]. split; [reflexivity | discriminate].
Qed.

(** ** Marking a post complete *)

Section Completion.
Implicit Types (s : Store) (p : Post.t) (item : string * Post.t).

Lemma claimedPosts_Permutation (l l' : list (string * Post.t)) :
  l ≡ₚ l' → claimedPosts l = claimedPosts l'.
Proof. intros Hl. unfold claimedPosts. by rewrite Hl. Qed.

Lemma claimedPosts_cons item (l : list (string * Post.t)) :
  claimedPosts (item :: l)
  = (if JS.truthy (Post.claimedBy item.2) then 1 else 0) + claimedPosts l.
Proof.
  unfold claimedPosts. rewrite filter_cons.
  destruct (decide (JS.truthy (Post.claimedBy item.2) = true)) as [->|Hf]; [done|].
  by destruct (JS.truthy (Post.claimedBy item.2)).
Qed.

(** Replacing one document by one with the same [claimedBy] keeps the count of
    claimed posts of the collection. *)
Lemma claimedPosts_insert (m : gmap string Post.t) postId p p' :
  m !! postId = Some p →
  Post.claimedBy p' = Post.claimedBy p →
  claimedPosts (map_to_list (<[postId := p']> m)) = claimedPosts (map_to_list m).
Proof.
  intros Hp Hsame.
  rewrite <- (insert_delete_eq m postId p').
  rewrite (claimedPosts_Permutation _ ((postId, p') :: map_to_list (delete postId m)))
    by (apply map_to_list_insert, lookup_delete_eq).
  rewrite (claimedPosts_Permutation (map_to_list m)
             ((postId, p) :: map_to_list (delete postId m)))
    by (symmetry; by apply map_to_list_delete).
  rewrite !claimedPosts_cons. simpl. by rewrite Hsame.
Qed.

Lemma claimedPosts_allPostsQuery s id :
  claimedPosts (allPostsQuery s id) = claimedPosts (map_to_list (postsOf s id)).
Proof.
  apply claimedPosts_Permutation. unfold allPostsQuery. apply merge_sort_Permutation.
Qed.

Lemma markComplete_existing s id postId p :
  postsOf s id !! postId = Some p →
  markComplete id postId s = (putPost s id postId (Post.with_completed true p), []).
Proof.
  intros Hp. unfold markComplete. by rewrite (updatePost_Some _ _ _ _ _ Hp).
Qed.

Lemma markComplete_missing s id postId :
  postsOf s id !! postId = None →
  markComplete id postId s = (s, [Alert "Error" "Could not mark as complete."]).
Proof.
  intros Hp. unfold markComplete. by rewrite (updatePost_None _ _ _ _ Hp).
Qed.

(** C10. Marking an existing post complete stores the post with [completed]
    set and every other field as it was (title, description, location,
    imageUrl, userId, userName, userEmail, claimedBy, claimedByName,
    claimedByEmail, createdAt); no other post and no other collection changes;
    and the number of claimed posts the analytics tab counts, for any event,
    is what it was. *)
Theorem markComplete_frame s id postId p :
  postsOf s id !! postId = Some p →
  let s' := (markComplete id postId s).1 in
  let p' := Post.with_completed true p in
  postsOf s' id !! postId = Some p'
  ∧ Post.completed p' = true
  ∧ (Post.title p' = Post.title p ∧ Post.description p' = Post.description p
     ∧ Post.location p' = Post.location p ∧ Post.imageUrl p' = Post.imageUrl p
     ∧ Post.userId p' = Post.userId p ∧ Post.userName p' = Post.userName p
     ∧ Post.userEmail p' = Post.userEmail p ∧ Post.claimedBy p' = Post.claimedBy p
     ∧ Post.claimedByName p' = Post.claimedByName p
     ∧ Post.claimedByEmail p' = Post.claimedByEmail p
     ∧ Post.createdAt p' = Post.createdAt p)
  ∧ (∀ id' postId', (id', postId') ≠ (id, postId) →
                    postsOf s' id' !! postId' = postsOf s id' !! postId')
  ∧ users s' = users s ∧ events s' = events s ∧ notifications s' = notifications s
  ∧ (∀ id', claimedPosts (allPostsQuery s' id') = claimedPosts (allPostsQuery s id')).
Proof.
  intros Hp s' p'. subst s'. rewrite (markComplete_existing _ _ _ _ Hp). cbn [fst].
  split; [apply lookup_putPost|]. split; [done|]. split; [done|].
  split; [|split; [done|split; [done|split; [done|]]]].
  - intros id' postId' Hne. rewrite postsOf_putPost.
    destruct (decide (id = id')) as [<-|Hid]; [|done].
    rewrite lookup_insert_ne; [done | congruence].
  - intros id'. rewrite !claimedPosts_allPostsQuery, postsOf_putPost.
    destruct (decide (id = id')) as [<-|Hid]; [|done].
    by apply (claimedPosts_insert _ _ p).
Qed.

End Completion.

Lemma markComplete_frame_witness :
  claimedPosts (allPostsQuery claimed_store "e1") = 1
  ∧ claimedPosts (allPostsQuery (markComplete "e1" "p1" claimed_store).1 "e1") = 1
  ∧ postsOf (markComplete "e1" "p1" claimed_store).1 "e1" !! "p1"
    = Some (Post.with_completed true pizza_for_bob).
Proof.
  destruct (markComplete_frame claimed_store "e1" "p1" pizza_for_bob)
    as (Hstored & _ & _ & _ & _ & _ & _ & Hcount).
  - reflexivity.
  - split; [reflexivity|]. split; [|exact Hstored].
    rewrite (Hcount "e1"). reflexivity.
Defined.

(** ** Completion is final *)

Section Monotone.
Implicit Types (s : Store) (p : Post.t) (item : string * Post.t).

Lemma is_completed_same_posts s s' id postId :
  posts s' = posts s → is_completed s id postId → is_completed s' id postId.
Proof. unfold is_completed, postsOf. by intros ->. Qed.

(** A partial update that never clears [completed] keeps completed posts
    completed. *)
Lemma updatePost_completed s s' id0 postId0 f id postId :
  (∀ p, Post.completed p = true → Post.completed (f p) = true) →
  updatePost s id0 postId0 f = Some s' →
  is_completed s id postId → is_completed s' id postId.
Proof.
  intros Hf Hup (p & Hp & Hdone).
  destruct (postsOf s id0 !! postId0) as [q|] eqn:Hq;
    [|by rewrite (updatePost_None _ _ _ _ Hq) in Hup].
  rewrite (updatePost_Some _ _ _ _ _ Hq) in Hup. injection Hup as <-.
  unfold is_completed. rewrite postsOf_putPost.
  destruct (decide (id0 = id)) as [->|Hid]; [|by exists p].
  destruct (decide (postId0 = postId)) as [->|Hpid].
  - exists (f q). rewrite lookup_insert_eq. split; [done|].
    apply Hf. congruence.
  - exists p. by rewrite lookup_insert_ne.
Qed.

Lemma claimPost_completed currentUser id0 now postId0 currentClaimedBy postOwnerId
    postTitle s id postId :
  is_completed s id postId →
  is_completed
    (claimPost currentUser id0 now postId0 currentClaimedBy postOwnerId postTitle s).1
    id postId.
Proof.
  intros Hdone. unfold claimPost.
  destruct currentUser as [u|]; [|done].
  destruct (JS.strict_eq currentClaimedBy (AuthUser.uid u)).
  - destruct (updatePost s id0 postId0 _) as [s'|] eqn:Hup; [|done].
    refine (updatePost_completed _ _ _ _ _ _ _ _ Hup Hdone). by intros [].
  - destruct (updatePost s id0 postId0 _) as [s'|] eqn:Hup; [|done].
    assert (Hdone' : is_completed s' id postId).
    { refine (updatePost_completed _ _ _ _ _ _ _ _ Hup Hdone). by intros []. }
    destruct (bool_decide (postOwnerId ≠ AuthUser.uid u)); [|done].
    by apply (is_completed_same_posts s').
Qed.

Lemma markComplete_completed id0 postId0 s id postId :
  is_completed s id postId → is_completed (markComplete id0 postId0 s).1 id postId.
Proof.
  intros Hdone. unfold markComplete.
  destruct (updatePost s id0 postId0 _) as [s'|] eqn:Hup; [|done].
  refine (updatePost_completed _ _ _ _ _ _ _ _ Hup Hdone). by intros [].
Qed.

Lemma postsOf_insert s id ps id' :
  postsOf (set_posts (<[id := ps]> (posts s)) s) id'
  = if decide (id = id') then ps else postsOf s id'.
Proof.
  unfold postsOf at 1. cbn [posts set_posts].
  destruct (decide (id = id')) as [->|Hne].
  - by rewrite lookup_insert_eq.
  - by rewrite lookup_insert_ne.
Qed.

Lemma createPost_completed user eventId title description location imageUrl now s
    id postId :
  is_completed s id postId →
  is_completed
    (createPost user eventId title description location imageUrl now s).1 id postId.
Proof.
  intros (p & Hp & Hdone). unfold createPost.
  destruct user as [u|]; [|by exists p].
  destruct (JS.blank (JS.trim title) || JS.blank (JS.trim description));
    [by exists p|].
  match goal with |- context [addDoc ?m ?d] =>
    destruct (addDoc_fresh m d) as [Hk Hm]; destruct (addDoc m d) as [k ps]
  end.
  simpl in Hk, Hm. subst ps. exists p. split; [|done].
  cbn [fst]. rewrite postsOf_insert.
  destruct (decide (eventId = id)) as [->|Hid]; [|done].
  rewrite lookup_insert_ne; [done | congruence].
Qed.

Lemma join_same_posts user input s :
  posts (handleJoinEvent user input s).1 = posts s.
Proof.
  unfold handleJoinEvent. destruct user as [u|]; [|done].
  destruct (JS.blank _); [done|].
  destruct (eventsByJoinCode s _) as [|[k e] ?]; [done|].
  destruct (JS.includes _ _); [done|].
  by destruct (updateDoc _ _ _).
Qed.

Lemma scan_same_posts scanned user data s :
  posts (barcodeScanned scanned user data s).1 = posts s.
Proof.
  unfold barcodeScanned. destruct scanned; [done|]. destruct user as [u|]; [|done].
  destruct (eventsByJoinCode s _) as [|[k e] ?]; [done|].
  destruct (JS.includes _ _); [done|].
  by destruct (updateDoc _ _ _).
Qed.

(** No handler takes a completed post back. *)
Lemma exec_completed op s id postId :
  is_completed s id postId → is_completed (exec op s) id postId.
Proof.
  intros Hdone. destruct op; try rewrite exec_CreateEvent; cbn [exec].
  - done.
  - eapply is_completed_same_posts; [|done]. apply join_same_posts.
  - eapply is_completed_same_posts; [|done]. apply scan_same_posts.
  - by apply createPost_completed.
  - by apply claimPost_completed.
  - unfold pressClaim. destruct (claimButton _ _); try done.
    by apply claimPost_completed.
  - by apply markComplete_completed.
  - unfold pressComplete. destruct (completeButton _ _); try done.
    by apply markComplete_completed.
  - unfold markAsRead. destruct (updateDoc _ _ _); [|done].
    by eapply is_completed_same_posts.
Qed.

(** The active feed holds exactly the stored posts that are not completed. *)
Lemma elem_of_activePostsQuery s id item :
  item ∈ activePostsQuery s id
  ↔ postsOf s id !! item.1 = Some item.2 ∧ Post.completed item.2 = false.
Proof.
  unfold activePostsQuery.
  rewrite merge_sort_Permutation, list_elem_of_filter, elem_of_map_to_list'. tauto.
Qed.

(** C1. Once a post is stored with [completed] true, it is stored with
    [completed] true after any sequence of handlers (event creation, join by
    code or by QR, post creation, claim and unclaim, mark complete, mark a
    notification read), and the active-feed query of its event returns no
    item with its id. *)
Theorem completion_monotone ops s id postId :
  is_completed s id postId →
  is_completed (run ops s) id postId
  ∧ ∀ item, item ∈ activePostsQuery (run ops s) id → item.1 ≠ postId.
Proof.
  intros Hdone.
  assert (Hrun : is_completed (run ops s) id postId).
  { revert s Hdone. unfold run.
    induction ops as [|op ops IH]; intros s Hdone; [done|].
    apply IH. by apply exec_completed. }
  split; [done|].
  intros item [Hitem Hactive]%elem_of_activePostsQuery Heq.
  rewrite Heq in Hitem. destruct Hrun as (p & Hp & Hp'). congruence.
Qed.

End Monotone.

(** *** A completed post under further traffic *)

Lemma completion_monotone_witness :
  is_completed (run later_ops completed_store) "e1" "p1"
  ∧ ∀ item, item ∈ activePostsQuery (run later_ops completed_store) "e1" →
            item.1 ≠ "p1".
Proof.
  apply (completion_monotone later_ops completed_store "e1" "p1").
  exists (Post.with_completed true pizza_for_bob). split; reflexivity.
Defined.

(** After that traffic the active feed shows the new post only, and Carol
    attends the event. *)
Example later_feed :
  (activePostsQuery (run later_ops completed_store) "e1").*1 = ["0"]
  ∧ Event.attendees <$> events (run later_ops completed_store) !! "e1"
    = Some ["alice"; "bob"; "carol"].
Proof. split; vm_compute; reflexivity. Qed.

(** ** The search box *)

Section Search.
Implicit Types (q r t : string) (posts : list (string * Post.t)).

Lemma lower_upper_ascii c : Str.lower_ascii (JS.upper_ascii c) = Str.lower_ascii c.
Proof. by destruct c as [[] [] [] [] [] [] [] []]. Qed.

Lemma lower_lower_ascii c : Str.lower_ascii (Str.lower_ascii c) = Str.lower_ascii c.
Proof. by destruct c as [[] [] [] [] [] [] [] []]. Qed.

Lemma is_space_upper c : JS.is_space (JS.upper_ascii c) = JS.is_space c.
Proof. by destruct c as [[] [] [] [] [] [] [] []]. Qed.

Lemma is_space_lower c : JS.is_space (Str.lower_ascii c) = JS.is_space c.
Proof. by destruct c as [[] [] [] [] [] [] [] []]. Qed.

Lemma toLowerCase_toUpperCase t : Str.toLowerCase (JS.toUpperCase t) = Str.toLowerCase t.
Proof. induction t as [|c t IH]; simpl; [done|]. by rewrite lower_upper_ascii, IH. Qed.

Lemma toLowerCase_idemp t : Str.toLowerCase (Str.toLowerCase t) = Str.toLowerCase t.
Proof. induction t as [|c t IH]; simpl; [done|]. by rewrite lower_lower_ascii, IH. Qed.

Lemma toLowerCase_append q r :
  Str.toLowerCase (q +:+ r) = Str.toLowerCase q +:+ Str.toLowerCase r.
Proof. induction q as [|c q IH]; simpl; [done|]. by rewrite IH. Qed.

(** A text is blank after trimming exactly when it consists of white space. *)
Lemma trimEnd_nonempty c t : JS.is_space c = false → JS.blank (JS.trimEnd (String c t)) = false.
Proof.
  intros Hc. cbn [JS.trimEnd]. destruct (JS.trimEnd t); [by rewrite Hc | done].
Qed.

Lemma blank_trim t : JS.blank (JS.trim t) = all_chars JS.is_space t.
Proof.
  unfold JS.trim. induction t as [|c t IH]; [done|].
  cbn [JS.trimStart all_chars]. destruct (JS.is_space c) eqn:Hc; [done|].
  by rewrite trimEnd_nonempty.
Qed.

Lemma all_space_upper t :
  all_chars JS.is_space (JS.toUpperCase t) = all_chars JS.is_space t.
Proof. induction t as [|c t IH]; simpl; [done|]. by rewrite is_space_upper, IH. Qed.

Lemma all_space_lower t :
  all_chars JS.is_space (Str.toLowerCase t) = all_chars JS.is_space t.
Proof. induction t as [|c t IH]; simpl; [done|]. by rewrite is_space_lower, IH. Qed.

Lemma startsWith_append_l q r t :
  JS.startsWith (q +:+ r) t = true → JS.startsWith q t = true.
Proof.
  revert t. induction q as [|a q IH]; intros [|b t]; simpl; try done.
  intros [Hab Hq]%andb_true_iff. rewrite Hab. simpl. eauto.
Qed.

Lemma includes_append_l t q r :
  Str.includes t (q +:+ r) = true → Str.includes t q = true.
Proof.
  induction t as [|b t IH]; cbn [Str.includes].
  - rewrite !orb_false_r. apply startsWith_append_l.
  - intros [H|H]%orb_true_iff; apply orb_true_iff.
    + left. by apply (startsWith_append_l q r).
    + right. by apply IH.
Qed.

Lemma matchesSearch_append q r post :
  matchesSearch (q +:+ r) post = true → matchesSearch q post = true.
Proof.
  unfold matchesSearch. rewrite !orb_true_iff.
  intros [[H|H]|H]; [left; left | left; right | right];
    by apply (includes_append_l _ q r).
Qed.

Lemma startsWith_spec p t : JS.startsWith p t = true ↔ ∃ after, t = p +:+ after.
Proof.
  revert t. induction p as [|a p IH]; intros t; cbn [JS.startsWith].
  - split; [by exists t | done].
  - destruct t as [|b t]; [split; [done | by intros [? ?]]|].
    rewrite andb_true_iff, bool_decide_eq_true, IH. split.
    + intros [-> [after ->]]. by exists after.
    + intros [after [= -> ->]]. split; [done | by exists after].
Qed.

(** [includes] finds the text at some position and nowhere else. *)
Lemma includes_spec t sub : Str.includes t sub = true ↔ occurs_in sub t.
Proof.
  unfold occurs_in. induction t as [|b t IH]; cbn [Str.includes].
  - rewrite orb_false_r, startsWith_spec. split.
    + intros [after ->]. by exists EmptyString, after.
    + intros ([|c before] & after & Heq); [by exists after | done].
  - rewrite orb_true_iff, startsWith_spec, IH. split.
    + intros [[after ->] | (before & after & ->)].
      * by exists EmptyString, after.
      * by exists (String b before), after.
    + intros ([|c before] & after & Heq).
      * left. by exists after.
      * right. injection Heq as -> ->. by exists before, after.
Qed.

(** X1. For ASCII text in the search box and in the posts, the search keeps,
    in the order of the feed, exactly the posts in which the lower-cased text
    of the box occurs in the lower-cased title, description or location; a
    text of white space alone keeps every post. *)
Theorem search_selects_matches q posts :
  JS.ascii_only q = true →
  Forall (λ post, ascii_post post.2) posts →
  filteredPosts q posts `sublist_of` posts
  ∧ ∀ post,
      post ∈ filteredPosts q posts
      ↔ post ∈ posts
        ∧ (all_chars JS.is_space q = true
           ∨ occurs_in (Str.toLowerCase q) (Str.toLowerCase (Post.title post.2))
           ∨ occurs_in (Str.toLowerCase q) (Str.toLowerCase (Post.description post.2))
           ∨ occurs_in (Str.toLowerCase q) (Str.toLowerCase (Post.location post.2))).
Proof.
  intros _ _. unfold filteredPosts. rewrite blank_trim.
  destruct (all_chars JS.is_space q) eqn:Hq.
  - split; [done|]. intros post. split; [by auto | by intros [? _]].
  - split; [apply sublist_filter|].
    intros post. rewrite list_elem_of_filter. unfold matchesSearch.
    rewrite !orb_true_iff, !includes_spec. split.
    + intros [[[?|?]|?] ?]; auto.
    + intros [? [?|[?|[?|?]]]]; auto. done.
Qed.

(** X2. The search does not depend on the case of the text typed: the text
    in upper case and the text in lower case select what the text itself
    selects. *)
Theorem search_ignores_case q posts :
  filteredPosts (JS.toUpperCase q) posts = filteredPosts q posts
  ∧ filteredPosts (Str.toLowerCase q) posts = filteredPosts q posts.
Proof.
  unfold filteredPosts. rewrite !blank_trim, all_space_upper, all_space_lower.
  by rewrite toLowerCase_toUpperCase, toLowerCase_idemp.
Qed.

(** X3. Typing on never brings a post back: for ASCII text in the search box,
    what a longer text selects is among what its beginning selects, in the
    same order. *)
Theorem search_narrows q r posts :
  JS.ascii_only q = true → JS.ascii_only r = true →
  filteredPosts (q +:+ r) posts `sublist_of` filteredPosts q posts.
Proof.
  intros _ _. unfold filteredPosts. rewrite !blank_trim, all_chars_append.
  destruct (all_chars JS.is_space q) eqn:Hq; cbn [andb].
  - destruct (all_chars JS.is_space r); [done | apply sublist_filter].
  - rewrite toLowerCase_append.
    rewrite <- (list_filter_filter_l
                  (λ post, matchesSearch (Str.toLowerCase q +:+ Str.toLowerCase r) post = true)
                  (λ post, matchesSearch (Str.toLowerCase q) post = true))
      by (intros post; apply matchesSearch_append).
    apply sublist_filter.
Qed.

(** The cards of the spec's example: "pizza" finds the two pizza posts. *)
Example search_pizza :
  let tacos := ("p2", Post.mk "Tacos" "Six left" "Booth 1" None "bob" None None
                        None None None false 11) in
  let slices := ("p3", Post.mk "Extra Pizza Slices" "Cold" "Booth 2" None "bob" None
                         None None None None false 12) in
  filteredPosts "pizza" [("p1", pizza); tacos; slices] = [("p1", pizza); slices].
Proof. reflexivity. Qed.

End Search.

(** ** The feed *)

Section Feed.
Implicit Types (s : Store) (u : AuthUser.t) (p : Post.t) (item : string * Post.t).

Global Instance newest_first_total : Total newest_first.
Proof.
  intros a b. unfold newest_first.
  destruct (Z.lt_trichotomy (Post.createdAt a.2) (Post.createdAt b.2)) as [?|[Heq|?]];
    [by right; left | | by left; left].
  destruct (total String.le a.1 b.1); [right | left]; right; by rewrite Heq.
Qed.

Global Instance newest_first_trans : Transitive newest_first.
Proof.
  intros a b c. unfold newest_first.
  intros [Hab|[Hab Hab']] [Hbc|[Hbc Hbc']].
  - left. lia.
  - left. lia.
  - left. lia.
  - right. split; [lia|]. by transitivity b.1.
Qed.

Lemma completedPosts_complement (l : list (string * Post.t)) :
  totalPosts l - completedPosts l
  = length (filter (λ d, Post.completed d.2 = false) l).
Proof.
  unfold totalPosts, completedPosts.
  rewrite <- (filter_app_complement (λ d, Post.completed d.2 = true) l) at 1.
  rewrite length_app.
  rewrite (list_filter_iff (λ d, ¬ Post.completed d.2 = true)
             (λ d, Post.completed d.2 = false))
    by (intros d; by destruct (Post.completed d.2)).
  lia.
Qed.

(** X4. The "Active Posts" figure of the analytics tab,
    [totalPosts - completedPosts] over the listener of all posts, is the
    number of cards in the feed of the same store. *)
Theorem active_posts_is_feed_length s id :
  totalPosts (allPostsQuery s id) - completedPosts (allPostsQuery s id)
  = length (activePostsQuery s id).
Proof.
  rewrite completedPosts_complement. unfold allPostsQuery, activePostsQuery.
  by rewrite !merge_sort_Permutation.
Qed.


(** The post [createPost] writes. *)
Lemma createPost_accepted u eventId title description location imageUrl now s :
  JS.blank (JS.trim title) = false →
  JS.blank (JS.trim description) = false →
  let p := Post.mk (JS.trim title) (JS.trim description) (JS.trim location)
             imageUrl (AuthUser.uid u) (lookupDisplayName s (AuthUser.uid u))
             (AuthUser.email u) None None None false now in
  createPost (Some u) eventId title description location imageUrl now s
  = (set_posts
       (<[eventId := <[fresh (dom (postsOf s eventId)) := p]> (postsOf s eventId)]>
          (posts s)) s,
     [Alert "Success" "Food post created!"; Back]).
Proof. intros Ht Hd. unfold createPost. by rewrite Ht, Hd. Qed.

(** X6. A post form in ASCII text with a title and a description that are not
    blank adds one card to the feed of its event: the new post, under an id no post of
    the event had, with the fields trimmed, the author's id, name and email,
    unclaimed and not completed.  The cards that were there stay, and no
    other event, user or notification changes. *)
Theorem createPost_adds_card u eventId title description location imageUrl now s :
  JS.ascii_only title = true → JS.ascii_only description = true →
  JS.ascii_only location = true →
  JS.blank (JS.trim title) = false →
  JS.blank (JS.trim description) = false →
  let s' := (createPost (Some u) eventId title description location imageUrl now s).1 in
  let p := Post.mk (JS.trim title) (JS.trim description) (JS.trim location)
             imageUrl (AuthUser.uid u) (lookupDisplayName s (AuthUser.uid u))
             (AuthUser.email u) None None None false now in
  ∃ postId,
    postsOf s eventId !! postId = None
    ∧ postsOf s' eventId = <[postId := p]> (postsOf s eventId)
    ∧ activePostsQuery s' eventId ≡ₚ (postId, p) :: activePostsQuery s eventId
    ∧ (∀ id, id ≠ eventId → postsOf s' id = postsOf s id)
    ∧ users s' = users s ∧ events s' = events s
    ∧ notifications s' = notifications s.
Proof.
  intros _ _ _ Ht Hd s' p. subst s'.
  rewrite createPost_accepted by done. cbn [fst]. fold p.
  assert (Hfresh : postsOf s eventId !! fresh (dom (postsOf s eventId)) = None)
    by apply not_elem_of_dom, is_fresh.
  exists (fresh (dom (postsOf s eventId))). split; [done|].
  split; [|split; [|split; [|done]]].
  - rewrite postsOf_insert. by rewrite decide_True.
  - unfold activePostsQuery. rewrite !merge_sort_Permutation.
    rewrite postsOf_insert, decide_True by done.
    rewrite map_to_list_insert by done. by rewrite filter_cons_True.
  - intros id Hid. rewrite postsOf_insert. by rewrite decide_False.
Qed.

End Feed.

(** ** Joining for the first time *)

Section JoinNew.
Implicit Types (s : Store) (u : AuthUser.t) (e : Event.t).

Lemma arrayUnion_new (x : string) (arr : list string) :
  x ∉ arr → arrayUnion x arr = (arr ++ [x])%list.
Proof. intros Hx. unfold arrayUnion, JS.includes. by rewrite bool_decide_eq_false_2. Qed.

Lemma arrayUnion_old (x : string) (arr : list string) :
  x ∈ arr → arrayUnion x arr = arr.
Proof. intros Hx. unfold arrayUnion, JS.includes. by rewrite bool_decide_eq_true_2. Qed.

Lemma join_newcomer u e :
  AuthUser.uid u ∉ Event.attendees e → join u e = joined u e.
Proof. intros Hu. unfold join, joined. by rewrite arrayUnion_new. Qed.

Lemma handleJoinEvent_newcomer s eventId e u input :
  events s !! eventId = Some e →
  (∀ k e', events s !! k = Some e' →
           Event.joinCode e' = Event.joinCode e → k = eventId) →
  AuthUser.uid u ∉ Event.attendees e →
  JS.blank (JS.trim input) = false →
  JS.toUpperCase (JS.trim input) = Event.joinCode e →
  handleJoinEvent (Some u) input s
  = (set_events (<[eventId := joined u e]> (events s)) s,
     [Alert "Success!"
        ("You've joined " +:+ dquote +:+ Event.title e +:+ dquote +:+ "!");
      ReplaceEvent eventId]).
Proof.
  intros He Huniq Hu Hblank Hnorm. unfold handleJoinEvent.
  rewrite Hblank, Hnorm.
  destruct (eventsByJoinCode_unique s eventId e He Huniq) as [rest ->].
  unfold JS.includes. rewrite bool_decide_eq_false_2 by done.
  unfold updateDoc. rewrite He. by rewrite join_newcomer.
Qed.

Lemma barcodeScanned_newcomer s eventId e u data :
  events s !! eventId = Some e →
  (∀ k e', events s !! k = Some e' →
           Event.joinCode e' = Event.joinCode e → k = eventId) →
  AuthUser.uid u ∉ Event.attendees e →
  JS.toUpperCase (if JS.startsWith "GRUBIO:" data then JS.substring 7 data else data)
  = Event.joinCode e →
  barcodeScanned false (Some u) data s
  = (set_events (<[eventId := joined u e]> (events s)) s, [ReplaceEvent eventId]).
Proof.
  intros He Huniq Hu Hnorm. unfold barcodeScanned.
  rewrite Hnorm.
  destruct (eventsByJoinCode_unique s eventId e He Huniq) as [rest ->].
  unfold JS.includes. rewrite bool_decide_eq_false_2 by done.
  unfold updateDoc. rewrite He. by rewrite join_newcomer.
Qed.

Lemma codes_wf_unique s eventId e :
  codes_wf s → events s !! eventId = Some e →
  ∀ k e', events s !! k = Some e' →
          Event.joinCode e' = Event.joinCode e → k = eventId.
Proof. intros [_ Hd] He k e' He' Hc. by apply (Hd k eventId e' e). Qed.

(** X7. In a store whose join codes are well formed and distinct, a signed-in
    user who does not attend an event yet and types its join code, in any
    case and with white space around it, or scans the QR code of its Share
    tab, is appended to the attendees of that event and sent to it; the typed
    path also shows the success alert.  Both paths leave the same store, in
    which nothing else has changed. *)
Theorem join_adds_attendee s eventId e u input :
  codes_wf s →
  events s !! eventId = Some e →
  AuthUser.uid u ∉ Event.attendees e →
  JS.toUpperCase (JS.trim input) = Event.joinCode e →
  let s' := set_events (<[eventId := joined u e]> (events s)) s in
  handleJoinEvent (Some u) input s
  = (s', [Alert "Success!"
            ("You've joined " +:+ dquote +:+ Event.title e +:+ dquote +:+ "!");
          ReplaceEvent eventId])
  ∧ barcodeScanned false (Some u) (qrValue e) s = (s', [ReplaceEvent eventId])
  ∧ Event.attendees (joined u e) = (Event.attendees e ++ [AuthUser.uid u])%list.
Proof.
  intros Hwf He Hu Hnorm s'.
  pose proof (codes_wf_unique s eventId e Hwf He) as Huniq.
  destruct Hwf as [Hvalid _]. destruct (Hvalid _ _ He) as [Hlen Hall].
  split; [|split; [|done]].
  - apply handleJoinEvent_newcomer; try done.
    destruct (JS.trim input); [|done].
    simpl in Hnorm. rewrite <- Hnorm in Hlen. done.
  - apply barcodeScanned_newcomer; try done.
    unfold qrValue. simpl. by apply toUpperCase_code.
Qed.

(** X8. Joining is idempotent: after a first join by code, a second join of
    the same user with the same code, typed or scanned, reports "Already
    Joined" and leaves the store of the first join as it is. *)
Theorem join_twice s eventId e u :
  codes_wf s →
  events s !! eventId = Some e →
  AuthUser.uid u ∉ Event.attendees e →
  let s1 := (handleJoinEvent (Some u) (Event.joinCode e) s).1 in
  handleJoinEvent (Some u) (Event.joinCode e) s1 = already_joined s1 eventId
  ∧ barcodeScanned false (Some u) (qrValue e) s1 = already_joined s1 eventId
  ∧ (barcodeScanned false (Some u) (qrValue e) s).1 = s1.
Proof.
  intros Hwf He Hu s1.
  pose proof (codes_wf_unique s eventId e Hwf He) as Huniq.
  destruct (proj1 Hwf _ _ He) as [Hlen Hall].
  assert (Hs1 : s1 = set_events (<[eventId := joined u e]> (events s)) s).
  { subst s1. rewrite (handleJoinEvent_newcomer s eventId e); try done.
    - rewrite trim_code by done. by destruct (Event.joinCode e).
    - by rewrite trim_code, toUpperCase_code. }
  assert (Hwf1 : codes_wf s1)
    by (rewrite Hs1; by apply (codes_wf_update s eventId e)).
  assert (He1 : events s1 !! eventId = Some (joined u e))
    by (rewrite Hs1; cbn [events set_events]; apply lookup_insert_eq).
  pose proof (codes_wf_unique s1 eventId _ Hwf1 He1) as Huniq1.
  assert (Hin : AuthUser.uid u ∈ Event.attendees (joined u e))
    by (cbn; set_solver).
  split; [|split].
  - apply (handleJoinEvent_member s1 eventId (joined u e)); try done.
    + cbn. rewrite trim_code by done. by destruct (Event.joinCode e).
    + cbn. by rewrite trim_code, toUpperCase_code.
  - apply (barcodeScanned_member s1 eventId (joined u e)); try done.
    unfold qrValue. simpl. by apply toUpperCase_code.
  - rewrite Hs1. rewrite (barcodeScanned_newcomer s eventId e); try done.
    unfold qrValue. simpl. by apply toUpperCase_code.
Qed.

End JoinNew.

(** ** What the handlers never do *)

Section Preservation.
Implicit Types (s : Store) (u : AuthUser.t) (e : Event.t) (p : Post.t)
  (n : Notification.t).

(** A document that every handler keeps, up to a preorder, is kept by every
    sequence of handlers. *)
Lemma run_keeps {A} (get : Store → option A) (R : A → A → Prop)
    `{!Reflexive R, !Transitive R} :
  (∀ op s a, get s = Some a → ∃ a', get (exec op s) = Some a' ∧ R a a') →
  ∀ ops s a, get s = Some a → ∃ a', get (run ops s) = Some a' ∧ R a a'.
Proof.
  intros Hstep ops. unfold run.
  induction ops as [|op ops IH]; intros s a Ha; [by exists a|].
  destruct (Hstep op s a Ha) as (a1 & Ha1 & HR1).
  destruct (IH _ _ Ha1) as (a2 & Ha2 & HR2).
  exists a2. split; [done|]. by transitivity a1.
Qed.

(** *** Events *)

Lemma event_extends_join u e : event_extends e (join u e).
Proof.
  unfold event_extends, join, arrayUnion. cbn.
  repeat split; try done.
  destruct (JS.includes _ _); [done | by apply prefix_app_r].
Qed.

Global Instance event_extends_refl : Reflexive event_extends.
Proof. intros e. by repeat split. Qed.

Global Instance event_extends_trans : Transitive event_extends.
Proof.
  intros e1 e2 e3 (?&?&?&?&?&?&?) (?&?&?&?&?&?&?).
  repeat split; try congruence. by etrans.
Qed.

(** A handler leaves the events alone or lets a user join an event. *)
Lemma exec_events_cases op s :
  events (exec op s) = events s
  ∨ (∃ k e0 u, events s !! k = Some e0
               ∧ events (exec op s) = <[k := join u e0]> (events s)).
Proof.
  destruct op; try rewrite exec_CreateEvent; cbn [exec].
  - by left.
  - unfold handleJoinEvent. destruct user as [u|]; [|by left].
    destruct (JS.blank _); [by left|].
    destruct (eventsByJoinCode s _) as [|[k e] ?]; [by left|].
    destruct (JS.includes _ _); [by left|].
    unfold updateDoc. destruct (events s !! k) as [e0|] eqn:He0; [|by left].
    right. by exists k, e0, u.
  - unfold barcodeScanned. destruct scanned; [by left|].
    destruct user as [u|]; [|by left].
    destruct (eventsByJoinCode s _) as [|[k e] ?]; [by left|].
    destruct (JS.includes _ _); [by left|].
    unfold updateDoc. destruct (events s !! k) as [e0|] eqn:He0; [|by left].
    right. by exists k, e0, u.
  - left. unfold createPost. destruct user as [u|]; [|done].
    destruct (_ || _); [done|]. by destruct (addDoc _ _).
  - left. apply claimPost_events.
  - left. unfold pressClaim. destruct (claimButton _ _); try done.
    apply claimPost_events.
  - left. apply markComplete_events.
  - left. unfold pressComplete. destruct (completeButton _ _); try done.
    apply markComplete_events.
  - left. unfold markAsRead. by destruct (updateDoc _ _ _).
Qed.

Lemma exec_attendees_wf op s : attendees_wf s → attendees_wf (exec op s).
Proof.
  intros Hwf k e.
  destruct (exec_events_cases op s) as [-> | (k0 & e0 & u & Hk0 & ->)];
    [by apply Hwf|].
  intros [[<- <-]|[Hne He]]%lookup_insert_Some; [|by eapply Hwf].
  destruct (Hwf _ _ Hk0) as [Hnd Hc].
  unfold join, arrayUnion, JS.includes. cbn. case_bool_decide as Hin.
  - by split.
  - split; [|apply elem_of_app; by left]. apply NoDup_app. split; [done|].
    split; [|apply NoDup_singleton].
    intros x Hx ->%list_elem_of_singleton. by apply Hin.
Qed.

(** X9. On every event, no user is listed twice among the attendees and the
    creator is one of them: no sequence of handlers breaks this. *)
Theorem attendees_invariant ops s :
  attendees_wf s → attendees_wf (run ops s).
Proof.
  unfold run. revert s.
  induction ops as [|op ops IH]; intros s Hwf; [done|].
  apply IH. by apply exec_attendees_wf.
Qed.

Lemma exec_event_extends op s k e :
  events s !! k = Some e →
  ∃ e', events (exec op s) !! k = Some e' ∧ event_extends e e'.
Proof.
  intros He.
  destruct (exec_events_cases op s) as [-> | (k0 & e0 & u & Hk0 & ->)].
  - by exists e.
  - destruct (decide (k0 = k)) as [->|Hne].
    + exists (join u e0). rewrite lookup_insert_eq. split; [done|].
      assert (e0 = e) as -> by congruence. apply event_extends_join.
    + exists e. by rewrite lookup_insert_ne.
Qed.

Lemma run_event_extends ops s k e :
  events s !! k = Some e →
  ∃ e', events (run ops s) !! k = Some e' ∧ event_extends e e'.
Proof.
  apply (run_keeps (λ s, events s !! k) event_extends).
  intros op s0 e0. apply exec_event_extends.
Qed.

(** X10. No sequence of handlers deletes an event, changes its title,
    description, date, creator, join code or creation time, or removes or
    reorders an attendee: the attendees it had are the first attendees it has
    afterwards. *)
Theorem events_only_grow ops s k e :
  events s !! k = Some e →
  ∃ e', events (run ops s) !! k = Some e' ∧ event_extends e e'.
Proof.
  apply (run_keeps (λ s, events s !! k) event_extends).
  intros op s0 e0. apply exec_event_extends.
Qed.

(** *** Posts *)

Global Instance post_same_content_refl : Reflexive post_same_content.
Proof. intros p. by repeat split. Qed.

Global Instance post_same_content_trans : Transitive post_same_content.
Proof.
  intros p1 p2 p3 (?&?&?&?&?&?&?&?) (?&?&?&?&?&?&?&?).
  repeat split; congruence.
Qed.

Lemma with_claim_same_content a b c p :
  post_same_content p (Post.with_claim a b c p).
Proof. by repeat split. Qed.

Lemma with_completed_same_content b p :
  post_same_content p (Post.with_completed b p).
Proof. by repeat split. Qed.

Lemma updatePost_same_content s s' id0 postId0 f id postId p :
  (∀ q, post_same_content q (f q)) →
  updatePost s id0 postId0 f = Some s' →
  postsOf s id !! postId = Some p →
  ∃ p', postsOf s' id !! postId = Some p' ∧ post_same_content p p'.
Proof.
  intros Hf Hup Hp.
  destruct (postsOf s id0 !! postId0) as [q|] eqn:Hq;
    [|by rewrite (updatePost_None _ _ _ _ Hq) in Hup].
  rewrite (updatePost_Some _ _ _ _ _ Hq) in Hup. injection Hup as <-.
  rewrite postsOf_putPost.
  destruct (decide (id0 = id)) as [->|Hid]; [|by exists p].
  destruct (decide (postId0 = postId)) as [->|Hpid].
  - exists (f q). rewrite lookup_insert_eq. split; [done|].
    assert (q = p) as -> by congruence. apply Hf.
  - exists p. by rewrite lookup_insert_ne.
Qed.

Lemma claimPost_same_content currentUser id0 now postId0 currentClaimedBy
    postOwnerId postTitle s id postId p :
  postsOf s id !! postId = Some p →
  ∃ p', postsOf (claimPost currentUser id0 now postId0 currentClaimedBy
                   postOwnerId postTitle s).1 id !! postId = Some p'
        ∧ post_same_content p p'.
Proof.
  intros Hp. unfold claimPost.
  destruct currentUser as [u|]; [|by exists p].
  destruct (JS.strict_eq currentClaimedBy (AuthUser.uid u)).
  - destruct (updatePost s id0 postId0 _) as [s'|] eqn:Hup; [|by exists p].
    refine (updatePost_same_content _ _ _ _ _ _ _ _ _ Hup Hp).
    apply with_claim_same_content.
  - destruct (updatePost s id0 postId0 _) as [s'|] eqn:Hup; [|by exists p].
    destruct (updatePost_same_content _ _ _ _ _ id postId p
                (with_claim_same_content _ _ _) Hup Hp) as (p' & Hp' & Hsame).
    exists p'. split; [|done].
    by destruct (bool_decide (postOwnerId ≠ AuthUser.uid u)).
Qed.

Lemma markComplete_same_content id0 postId0 s id postId p :
  postsOf s id !! postId = Some p →
  ∃ p', postsOf (markComplete id0 postId0 s).1 id !! postId = Some p'
        ∧ post_same_content p p'.
Proof.
  intros Hp. unfold markComplete.
  destruct (updatePost s id0 postId0 _) as [s'|] eqn:Hup; [|by exists p].
  refine (updatePost_same_content _ _ _ _ _ _ _ _ _ Hup Hp).
  apply with_completed_same_content.
Qed.

Lemma exec_post_same_content op s id postId p :
  postsOf s id !! postId = Some p →
  ∃ p', postsOf (exec op s) id !! postId = Some p' ∧ post_same_content p p'.
Proof.
  intros Hp. destruct op; try rewrite exec_CreateEvent; cbn [exec].
  - by exists p.
  - exists p. split; [|done]. unfold postsOf. by rewrite join_same_posts.
  - exists p. split; [|done]. unfold postsOf. by rewrite scan_same_posts.
  - exists p. split; [|done]. unfold createPost.
    destruct user as [u|]; [|done].
    destruct (JS.blank (JS.trim title) || JS.blank (JS.trim description)); [done|].
    match goal with |- context [addDoc ?m ?d] =>
      destruct (addDoc_fresh m d) as [Hk Hm]; destruct (addDoc m d) as [k ps]
    end.
    simpl in Hk, Hm. subst ps. cbn [fst]. rewrite postsOf_insert.
    destruct (decide (eventId = id)) as [->|Hid]; [|done].
    rewrite lookup_insert_ne; [done | congruence].
  - by apply claimPost_same_content.
  - unfold pressClaim. destruct (claimButton _ _); try by exists p.
    by apply claimPost_same_content.
  - by apply markComplete_same_content.
  - unfold pressComplete. destruct (completeButton _ _); try by exists p.
    by apply markComplete_same_content.
  - exists p. split; [|done]. unfold markAsRead.
    by destruct (updateDoc _ _ _).
Qed.

(** X11. No sequence of handlers deletes a post or changes its title,
    description, location, picture, author (id, name, email) or creation
    time: only the claim and the completion of a post ever change. *)
Theorem posts_keep_content ops s id postId p :
  postsOf s id !! postId = Some p →
  ∃ p', postsOf (run ops s) id !! postId = Some p' ∧ post_same_content p p'.
Proof.
  apply (run_keeps (λ s, postsOf s id !! postId) post_same_content).
  intros op s0 p0. apply exec_post_same_content.
Qed.

End Preservation.

(** ** Notifications *)

Section NotificationsRead.
Implicit Types (s : Store) (u : AuthUser.t) (n : Notification.t)
  (item : string * Notification.t) (uid : string).

Global Instance notification_extends_refl : Reflexive notification_extends.
Proof. intros n. by repeat split. Qed.

Global Instance notification_extends_trans : Transitive notification_extends.
Proof.
  intros n1 n2 n3 (?&?&?&?&?&?&?) (?&?&?&?&?&?&?).
  repeat split; try congruence. auto.
Qed.

Lemma updatePost_notifications s id postId f s' :
  updatePost s id postId f = Some s' → notifications s' = notifications s.
Proof.
  unfold updatePost. destruct (updateDoc _ _ _); [|done]. by intros [= <-].
Qed.

(** [claimPost] leaves the notifications alone or adds one under an unused
    id. *)
Lemma claimPost_notifications currentUser id now postId currentClaimedBy
    postOwnerId postTitle s :
  let s' := (claimPost currentUser id now postId currentClaimedBy postOwnerId
               postTitle s).1 in
  notifications s' = notifications s
  ∨ ∃ k n, notifications s !! k = None
           ∧ notifications s' = <[k := n]> (notifications s).
Proof.
  unfold claimPost. destruct currentUser as [u|]; [|by left].
  destruct (JS.strict_eq _ _).
  - destruct (updatePost s id postId _) as [s'|] eqn:Hup; [|by left].
    left. by apply updatePost_notifications in Hup.
  - destruct (updatePost s id postId _) as [s'|] eqn:Hup; [|by left].
    apply updatePost_notifications in Hup.
    destruct (bool_decide _); [|by left].
    right. cbn. rewrite Hup. eexists _, _. split; [|done].
    apply fresh_notification.
Qed.

Lemma markComplete_notifications id postId s :
  notifications (markComplete id postId s).1 = notifications s.
Proof.
  unfold markComplete.
  destruct (updatePost s id postId _) as [s'|] eqn:Hup; [|done].
  by apply updatePost_notifications in Hup.
Qed.

(** A handler leaves the notifications alone, adds one under an unused id,
    or marks one read. *)
Lemma exec_notifications_cases op s :
  notifications (exec op s) = notifications s
  ∨ (∃ k n, notifications s !! k = None
            ∧ notifications (exec op s) = <[k := n]> (notifications s))
  ∨ (∃ k n, notifications s !! k = Some n
            ∧ notifications (exec op s)
              = <[k := Notification.with_read true n]> (notifications s)).
Proof.
  destruct op; try rewrite exec_CreateEvent; cbn [exec].
  - by left.
  - left. unfold handleJoinEvent. destruct user as [u|]; [|done].
    destruct (JS.blank _); [done|].
    destruct (eventsByJoinCode s _) as [|[k e] ?]; [done|].
    destruct (JS.includes _ _); [done|]. by destruct (updateDoc _ _ _).
  - left. unfold barcodeScanned. destruct scanned; [done|].
    destruct user as [u|]; [|done].
    destruct (eventsByJoinCode s _) as [|[k e] ?]; [done|].
    destruct (JS.includes _ _); [done|]. by destruct (updateDoc _ _ _).
  - left. unfold createPost. destruct user as [u|]; [|done].
    destruct (_ || _); [done|]. by destruct (addDoc _ _).
  - destruct (claimPost_notifications currentUser id now postId currentClaimedBy
                postOwnerId postTitle s) as [?|?]; [by left | by right; left].
  - unfold pressClaim. destruct (claimButton _ _); try by left.
    destruct (claimPost_notifications currentUser id now item.1
                (JS.or_else (Post.claimedBy item.2) None) (Post.userId item.2)
                (Post.title item.2) s) as [?|?]; [by left | by right; left].
  - left. apply markComplete_notifications.
  - left. unfold pressComplete. destruct (completeButton _ _); try done.
    apply markComplete_notifications.
  - unfold markAsRead, updateDoc.
    destruct (notifications s !! notificationId) as [n|] eqn:Hn; [|by left].
    right; right. by exists notificationId, n.
Qed.

Lemma exec_notification_extends op s k n :
  notifications s !! k = Some n →
  ∃ n', notifications (exec op s) !! k = Some n' ∧ notification_extends n n'.
Proof.
  intros Hn.
  destruct (exec_notifications_cases op s)
    as [-> | [(k0 & n0 & Hk0 & ->) | (k0 & n0 & Hk0 & ->)]].
  - by exists n.
  - exists n. split; [|done]. rewrite lookup_insert_ne; [done | congruence].
  - destruct (decide (k0 = k)) as [->|Hne].
    + exists (Notification.with_read true n0). rewrite lookup_insert_eq.
      split; [done|]. assert (n0 = n) as -> by congruence. by repeat split.
    + exists n. by rewrite lookup_insert_ne.
Qed.

(** X12. No sequence of handlers deletes a notification, changes its
    recipient, type, message, event, post or time, or makes a read
    notification unread again. *)
Theorem notifications_only_get_read ops s k n :
  notifications s !! k = Some n →
  ∃ n', notifications (run ops s) !! k = Some n' ∧ notification_extends n n'.
Proof.
  apply (run_keeps (λ s, notifications s !! k) notification_extends).
  intros op s0 n0. apply exec_notification_extends.
Qed.

(** *** The unread count *)

Lemma unreadCount_list uid s :
  unreadCount uid s
  = length
      (filter (λ d, Notification.userId d.2 = uid ∧ Notification.read d.2 = false)
         (map_to_list (notifications s))).
Proof. unfold unreadCount, docs. by rewrite merge_sort_Permutation. Qed.

(** X13. The badge of the home screen and the "N unread" line of the
    notifications screen show the same number on the same store, although
    they come from two different queries. *)
Theorem unread_badge_agrees uid s :
  unreadCount uid s = unreadShown (notificationsQuery uid s).
Proof.
  rewrite unreadCount_list. unfold unreadShown, notificationsQuery.
  rewrite merge_sort_Permutation, list_filter_filter.
  f_equal. apply list_filter_iff. intros d. tauto.
Qed.

Lemma unreadCount_insert uid s s' k n :
  notifications s !! k = None →
  notifications s' = <[k := n]> (notifications s) →
  unreadCount uid s'
  = (if decide (Notification.userId n = uid ∧ Notification.read n = false)
     then 1 else 0) + unreadCount uid s.
Proof.
  intros Hk Hs'. rewrite !unreadCount_list, Hs'.
  rewrite map_to_list_insert by done. rewrite filter_cons. cbn [snd].
  by destruct (decide _).
Qed.

Lemma unreadCount_replace uid s s' k n n' :
  notifications s !! k = Some n →
  notifications s' = <[k := n']> (notifications s) →
  (if decide (Notification.userId n = uid ∧ Notification.read n = false)
   then 1 else 0) + unreadCount uid s'
  = (if decide (Notification.userId n' = uid ∧ Notification.read n' = false)
     then 1 else 0) + unreadCount uid s.
Proof.
  intros Hk Hs'. rewrite !unreadCount_list, Hs'.
  rewrite <- (insert_delete_eq (notifications s) k n').
  rewrite (map_to_list_insert (delete k (notifications s)))
    by apply lookup_delete_eq.
  rewrite <- (map_to_list_delete (notifications s) k n Hk).
  rewrite !filter_cons. cbn [snd].
  repeat destruct (decide _); simpl; lia.
Qed.

(** X14. A claim of an unclaimed post by a user other than the owner, made
    from a card that shows the stored post, raises the owner's unread count
    by exactly one and nobody else's. *)
Theorem claim_raises_owner_badge s id now u (card : string * Post.t) :
  postsOf s id !! card.1 = Some card.2 →
  Post.userId card.2 ≠ AuthUser.uid u →
  JS.truthy (Post.claimedBy card.2) = false →
  let s' := (pressClaim (Some u) id now card s).1 in
  unreadCount (Post.userId card.2) s' = S (unreadCount (Post.userId card.2) s)
  ∧ ∀ uid, uid ≠ Post.userId card.2 → unreadCount uid s' = unreadCount uid s.
Proof.
  intros Hp Howner Hfree s'. subst s'.
  rewrite pressClaim_unclaimed by done.
  rewrite (claimPost_claim _ _ _ _ _ _ _ _ _ Hp) by done.
  rewrite bool_decide_eq_true_2 by done. cbn [fst].
  split.
  - erewrite unreadCount_insert; [|apply fresh_notification|done].
    by rewrite decide_True.
  - intros uid Huid.
    erewrite unreadCount_insert; [|apply fresh_notification|done].
    rewrite decide_False; [done|]. cbn. by intros [? _].
Qed.

Lemma elem_of_notificationsQuery uid s item :
  item ∈ notificationsQuery uid s
  ↔ notifications s !! item.1 = Some item.2 ∧ Notification.userId item.2 = uid.
Proof.
  unfold notificationsQuery.
  rewrite merge_sort_Permutation, list_elem_of_filter, elem_of_map_to_list'. tauto.
Qed.

(** X15. Pressing an unread notification of one's list opens the event of
    the notification, stores the notification as read with nothing else
    changed, lowers one's unread count by exactly one and nobody else's, and
    pressing it again changes nothing. *)
Theorem notificationPress_reads uid s item :
  item ∈ notificationsQuery uid s →
  Notification.read item.2 = false →
  let s' := (notificationPress item s).1 in
  (notificationPress item s).2 = Notification.eventId item.2
  ∧ s' = set_notifications
           (<[item.1 := Notification.with_read true item.2]> (notifications s)) s
  ∧ S (unreadCount uid s') = unreadCount uid s
  ∧ (∀ other, other ≠ uid → unreadCount other s' = unreadCount other s)
  ∧ (notificationPress item s').1 = s'.
Proof.
  intros [Hitem Huid]%elem_of_notificationsQuery Hunread s'.
  assert (Hs' : s' = set_notifications
                       (<[item.1 := Notification.with_read true item.2]>
                          (notifications s)) s).
  { subst s'. unfold notificationPress, markAsRead, updateDoc. cbn [fst].
    by rewrite Hitem. }
  split; [done|]. split; [done|].
  assert (Hn' : notifications s'
                = <[item.1 := Notification.with_read true item.2]> (notifications s))
    by (by rewrite Hs').
  split; [|split].
  - pose proof (unreadCount_replace uid s s' _ _ _ Hitem Hn') as Hc.
    rewrite decide_True in Hc by done.
    rewrite decide_False in Hc by (cbn; by intros [_ ?]). lia.
  - intros other Hother.
    pose proof (unreadCount_replace other s s' _ _ _ Hitem Hn') as Hc.
    rewrite decide_False in Hc by (intros [? _]; congruence).
    rewrite decide_False in Hc by (cbn; intros [? _]; congruence). lia.
  - unfold notificationPress, markAsRead, updateDoc. cbn [fst].
    rewrite Hn', lookup_insert_eq. rewrite Hs'. cbn.
    by rewrite insert_insert_eq.
Qed.

End NotificationsRead.

(** ** The home screen *)

Section Home.
Implicit Types (s : Store) (u v : AuthUser.t) (e : Event.t)
  (shown : list (string * Event.t)).

Lemma elem_of_getEvents u shown s (d : string * Event.t) :
  d ∈ getEvents (Some u) shown s
  ↔ events s !! d.1 = Some d.2 ∧ AuthUser.uid u ∈ Event.attendees d.2.
Proof.
  unfold getEvents. rewrite list_elem_of_filter, elem_of_docs. tauto.
Qed.

(** X17. The home screen lists exactly the events the signed-in user attends,
    each once, and an event on the list is still on the list, with the same
    title and join code, after any sequence of handlers. *)
Theorem home_list_never_shrinks u shown shown' ops s :
  NoDup (getEvents (Some u) shown s).*1
  ∧ (∀ d, d ∈ getEvents (Some u) shown s
          ↔ events s !! d.1 = Some d.2 ∧ AuthUser.uid u ∈ Event.attendees d.2)
  ∧ ∀ k e, (k, e) ∈ getEvents (Some u) shown s →
           ∃ e', (k, e') ∈ getEvents (Some u) shown' (run ops s)
                 ∧ event_extends e e'.
Proof.
  split; [|split].
  - unfold getEvents, docs.
    apply (sublist_NoDup _ (merge_sort by_id (map_to_list (events s))).*1);
      [|apply fmap_sublist, sublist_filter].
    rewrite merge_sort_Permutation. apply NoDup_fst_map_to_list.
  - intros d. apply elem_of_getEvents.
  - intros k e [He Hin]%elem_of_getEvents. cbn in He, Hin.
    destruct (run_event_extends ops s k e He) as (e' & He' & Hext).
    exists e'. split; [|done].
    apply elem_of_getEvents. split; [done|]. cbn.
    destruct Hext as (_&_&_&_&_&_&Hpre).
    destruct Hpre as [more ->]. apply elem_of_app. by left.
Qed.

End Home.

(** ** The claim button says what it does *)

Section ButtonText.
Implicit Types (s : Store) (u : AuthUser.t) (card : string * Post.t).

Lemma postsOf_set_notifications ns s id :
  postsOf (set_notifications ns s) id = postsOf s id.
Proof. reflexivity. Qed.

(** X18. On a card that shows the stored post to a user who is not its owner:
    a button labelled "Claim" is enabled and pressing it stores the user as
    claimant; a button labelled "Unclaim" is enabled and pressing it stores
    no claimant; a button labelled "Claimed" is disabled and pressing it
    changes nothing.  There is no other label. *)
Theorem button_says_what_it_does s id now u card :
  AuthUser.uid u ≠ EmptyString →
  postsOf s id !! card.1 = Some card.2 →
  Post.userId card.2 ≠ AuthUser.uid u →
  let s' := (pressClaim (Some u) id now card s).1 in
  (claimButtonText (Some u) card = "Claim"
   ∧ claimButton (Some u) card = Enabled
   ∧ Post.claimedBy <$> postsOf s' id !! card.1 = Some (Some (AuthUser.uid u)))
  ∨ (claimButtonText (Some u) card = "Unclaim"
     ∧ claimButton (Some u) card = Enabled
     ∧ Post.claimedBy <$> postsOf s' id !! card.1 = Some None)
  ∨ (claimButtonText (Some u) card = "Claimed"
     ∧ claimButton (Some u) card = Disabled
     ∧ s' = s).
Proof.
  intros Huid Hp Howner s'. subst s'.
  destruct (decide (Post.claimedBy card.2 = Some (AuthUser.uid u))) as [Hmine|Hother].
  - right; left.
    rewrite pressClaim_mine by done.
    rewrite (claimPost_unclaim _ _ _ _ _ _ _ _ Hp). cbn [fst].
    rewrite lookup_putPost.
    unfold claimButtonText, claimButton, isOwner, isClaimed, isClaimedByMe,
      JS.strict_eq.
    rewrite (bool_decide_eq_true_2 _ Hmine), bool_decide_eq_false_2 by done.
    by rewrite andb_false_r.
  - destruct (JS.truthy (Post.claimedBy card.2)) eqn:Hclaimed.
    + right; right.
      unfold pressClaim, claimButtonText, claimButton, isOwner, isClaimed,
        isClaimedByMe, JS.strict_eq.
      rewrite (bool_decide_eq_false_2 _ Hother), bool_decide_eq_false_2 by done.
      by rewrite Hclaimed.
    + left.
      rewrite pressClaim_unclaimed by done.
      rewrite (claimPost_claim _ _ _ _ _ _ _ _ _ Hp) by done.
      rewrite bool_decide_eq_true_2 by done. cbn [fst].
      split; [|split].
      * unfold claimButtonText, isClaimed, isClaimedByMe, JS.strict_eq.
        rewrite (bool_decide_eq_false_2 _ Hother). by rewrite Hclaimed.
      * unfold claimButton, isOwner, isClaimed.
        rewrite bool_decide_eq_false_2 by done. by rewrite Hclaimed.
      * rewrite postsOf_set_notifications. by rewrite lookup_putPost.
Qed.

End ButtonText.

(** ** Food champions *)

Section Champions.
Implicit Types (allPosts : list (string * Post.t)) (m : list (string * Champion.t))
  (c : Champion.t) (k : string).

Lemma countPost_keys k nm m :
  (countPost k nm m).*1 = if decide (k ∈ m.*1) then m.*1 else (m.*1 ++ [k])%list.
Proof.
  induction m as [|[k1 c1] m IH]; [done|]. cbn [countPost].
  destruct (decide (k1 = k)) as [->|Hne].
  - rewrite decide_True by (cbn; left). done.
  - cbn. rewrite IH.
    destruct (decide (k ∈ m.*1)) as [Hin|Hin].
    + rewrite decide_True by (by right). done.
    + rewrite decide_False; [done|].
      intros [?|?]%elem_of_cons; [congruence | done].
Qed.

Lemma countPost_NoDup k nm m : NoDup m.*1 → NoDup (countPost k nm m).*1.
Proof.
  intros Hnd. rewrite countPost_keys.
  destruct (decide (k ∈ m.*1)) as [Hin|Hin]; [done|].
  apply NoDup_app. split; [done|]. split; [|apply NoDup_singleton].
  intros x Hx ->%list_elem_of_singleton. by apply Hin.
Qed.

Lemma countPost_lookup k nm m k' :
  (list_to_map (countPost k nm m) : gmap string Champion.t) !! k'
  = if decide (k' = k) then
      Some (match (list_to_map m : gmap string Champion.t) !! k with
            | Some c => Champion.mk (S (Champion.count c)) (Champion.name c)
            | None => Champion.mk 1 nm
            end)
    else (list_to_map m : gmap string Champion.t) !! k'.
Proof.
  induction m as [|[k1 c1] m IH].
  - cbn. destruct (decide (k' = k)) as [->|Hne].
    + by rewrite lookup_insert_eq.
    + by rewrite lookup_insert_ne.
  - cbn [countPost]. destruct (decide (k1 = k)) as [->|Hne1].
    + rewrite !list_to_map_cons.
      destruct (decide (k' = k)) as [->|Hne].
      * by rewrite !lookup_insert_eq.
      * by rewrite !lookup_insert_ne.
    + rewrite !list_to_map_cons.
      destruct (decide (k' = k1)) as [->|Hne'].
      * rewrite decide_False by done. by rewrite !lookup_insert_eq.
      * rewrite lookup_insert_ne by done. rewrite IH.
        destruct (decide (k' = k)); [|by rewrite lookup_insert_ne].
        by rewrite lookup_insert_ne.
Qed.

Lemma userPostCounts_snoc allPosts (post : string * Post.t) :
  userPostCounts (allPosts ++ [post])
  = countPost (Post.userId post.2) (posterName post.2) (userPostCounts allPosts).
Proof. unfold userPostCounts. by rewrite foldl_snoc. Qed.

Lemma userPostCounts_NoDup allPosts : NoDup (userPostCounts allPosts).*1.
Proof.
  induction allPosts as [|post allPosts IH] using rev_ind; [constructor|].
  rewrite userPostCounts_snoc. by apply countPost_NoDup.
Qed.

Lemma championOf_snoc k allPosts (post : string * Post.t) :
  championOf k (allPosts ++ [post])
  = if decide (Post.userId post.2 = k) then
      Some (match championOf k allPosts with
            | Some c => Champion.mk (S (Champion.count c)) (Champion.name c)
            | None => Champion.mk 1 (posterName post.2)
            end)
    else championOf k allPosts.
Proof.
  unfold championOf, postsBy. rewrite filter_app, filter_cons, filter_nil.
  destruct (decide (Post.userId post.2 = k)) as [Hk|Hk].
  - destruct (filter _ allPosts) as [|first mine]; [done|].
    cbn. rewrite length_app. cbn. do 2 f_equal. lia.
  - by rewrite app_nil_r.
Qed.

(** The object the loop builds holds, for every author, the number of the
    author's posts and the name on the first of them. *)
Lemma userPostCounts_lookup allPosts k :
  (list_to_map (userPostCounts allPosts) : gmap string Champion.t) !! k
  = championOf k allPosts.
Proof.
  induction allPosts as [|post allPosts IH] using rev_ind; [done|].
  rewrite userPostCounts_snoc, countPost_lookup, championOf_snoc.
  destruct (decide (k = Post.userId post.2)) as [->|Hne].
  - rewrite decide_True by done. by rewrite IH.
  - rewrite decide_False by congruence. done.
Qed.

Lemma elem_of_userPostCounts allPosts k c :
  (k, c) ∈ userPostCounts allPosts ↔ championOf k allPosts = Some c.
Proof.
  rewrite <- userPostCounts_lookup.
  apply elem_of_list_to_map, userPostCounts_NoDup.
Qed.

Lemma championOf_is_Some allPosts k :
  is_Some (championOf k allPosts) ↔ k ∈ (λ post, Post.userId post.2) <$> allPosts.
Proof.
  unfold championOf, postsBy. rewrite list_elem_of_fmap. split.
  - destruct (filter _ allPosts) as [|first mine] eqn:Hf; [by intros [? ?]|].
    intros _. assert (Hin : first ∈ filter (λ post, Post.userId post.2 = k) allPosts)
      by (rewrite Hf; left).
    apply list_elem_of_filter in Hin as [Hk Hin]. by exists first.
  - intros (post & -> & Hin).
    destruct (filter _ allPosts) as [|first mine] eqn:Hf; [|by eexists].
    assert (Hin' : post ∈ filter (λ p, Post.userId p.2 = Post.userId post.2) allPosts)
      by (by apply list_elem_of_filter).
    rewrite Hf in Hin'. by apply not_elem_of_nil in Hin'.
Qed.

Lemma insertChampion_Permutation x m : insertChampion x m ≡ₚ x :: m.
Proof.
  induction m as [|y m IH]; [done|]. cbn [insertChampion].
  destruct (_ <? _)%nat; [|done]. rewrite IH. apply Permutation_swap.
Qed.

Lemma sortChampions_Permutation m : sortChampions m ≡ₚ m.
Proof.
  induction m as [|x m IH]; [done|]. cbn.
  rewrite insertChampion_Permutation. by rewrite IH.
Qed.

Lemma insertChampion_sorted x m :
  StronglySorted (λ a b, at_least_as_many a.2 b.2) m →
  StronglySorted (λ a b, at_least_as_many a.2 b.2) (insertChampion x m).
Proof.
  induction 1 as [|y m Hm IH Hy]; [repeat constructor|].
  cbn [insertChampion]. destruct (Nat.ltb_spec (Champion.count x.2) (Champion.count y.2)).
  - constructor; [done|].
    rewrite insertChampion_Permutation. constructor; [|done].
    unfold at_least_as_many. lia.
  - constructor; [by constructor|]. constructor; [done|].
    eapply Forall_impl; [exact Hy|]. unfold at_least_as_many. intros z Hz. lia.
Qed.

Lemma sortChampions_sorted m :
  StronglySorted (λ a b, at_least_as_many a.2 b.2) (sortChampions m).
Proof.
  induction m as [|x m IH]; [constructor|]. by apply insertChampion_sorted.
Qed.

(** X19. For posts whose authors' ids are plain keys, the analytics tab shows
    at most three food champions, as many as there are authors when these
    are fewer; each champion is an author, shown
    with the number of that author's posts and the name
    ([userName || userEmail || "Anonymous"]) on the first of that author's
    posts in the listing. *)
Theorem champions_are_authors allPosts :
  Forall (λ post, plain_key (Post.userId post.2) = true) allPosts →
  length (foodChampions allPosts)
  = 3 `min` length (remove_dups ((λ post, Post.userId post.2) <$> allPosts))
  ∧ ∀ c, c ∈ foodChampions allPosts →
         ∃ k first mine,
           postsBy k allPosts = first :: mine
           ∧ Champion.count c = length (postsBy k allPosts)
           ∧ Champion.name c = posterName first.2.
Proof.
  intros _. split.
  - unfold foodChampions. rewrite length_fmap, length_take. f_equal.
    rewrite sortChampions_Permutation.
    rewrite <- (length_fmap fst (userPostCounts allPosts)).
    apply Permutation_length, NoDup_Permutation;
      [apply userPostCounts_NoDup | apply NoDup_remove_dups |].
    intros k. rewrite elem_of_remove_dups, <- championOf_is_Some.
    rewrite list_elem_of_fmap. split.
    + intros ([k' c] & -> & Hin). apply elem_of_userPostCounts in Hin. by eexists.
    + intros [c Hc]. exists (k, c). split; [done|]. by apply elem_of_userPostCounts.
  - intros c ([k c'] & -> & Hin)%list_elem_of_fmap.
    apply (elem_of_sublist _ (sortChampions (userPostCounts allPosts))) in Hin;
      [|apply sublist_take].
    rewrite sortChampions_Permutation in Hin.
    apply elem_of_userPostCounts in Hin. unfold championOf in Hin.
    destruct (postsBy k allPosts) as [|first mine] eqn:Hmine; [done|].
    injection Hin as <-. exists k, first, mine. by rewrite Hmine.
Qed.

(** X20. For posts whose authors' ids are plain keys, the champions are
    listed by number of posts, most first, and an author who is not listed
    has no more posts than any champion listed. *)
Theorem champions_are_ranked allPosts :
  Forall (λ post, plain_key (Post.userId post.2) = true) allPosts →
  StronglySorted at_least_as_many (foodChampions allPosts)
  ∧ ∀ k c, championOf k allPosts = Some c →
           c ∈ foodChampions allPosts
           ∨ ∀ c', c' ∈ foodChampions allPosts → at_least_as_many c' c.
Proof.
  intros _.
  pose proof (sortChampions_sorted (userPostCounts allPosts)) as Hsorted.
  rewrite <- (take_drop 3 (sortChampions (userPostCounts allPosts))) in Hsorted.
  split.
  - unfold foodChampions.
    apply (StronglySorted_fmap snd (λ a b, at_least_as_many a.2 b.2)); [done|].
    by apply StronglySorted_app_1_l in Hsorted.
  - intros k c Hc%elem_of_userPostCounts.
    rewrite <- sortChampions_Permutation in Hc.
    rewrite <- (take_drop 3 (sortChampions (userPostCounts allPosts))) in Hc.
    apply elem_of_app in Hc as [Hc|Hc].
    + left. unfold foodChampions. apply list_elem_of_fmap. by exists (k, c).
    + right. intros c' ([k' c''] & -> & Hin)%list_elem_of_fmap.
      apply (StronglySorted_app_1_elem_of _ _ _ _ _ Hsorted Hin Hc).
Qed.

End Champions.

(** ** Sign-up *)

Section SignUp.
Implicit Types (s : Store) (u : AuthUser.t) (answer : AuthAnswer).

(** X22. After a successful sign-up with a name and an email in ASCII text,
    the claim by that user of a post of somebody else notifies the owner with
    a message that starts with the name given at sign-up, trimmed. *)
Theorem signUp_name_in_claim_message uid displayName email now s u id now' postId
    currentClaimedBy postOwnerId postTitle p :
  JS.ascii_only displayName = true → JS.ascii_only email = true →
  JS.blank (JS.trim displayName) = false →
  AuthUser.uid u = uid →
  let s1 := (signUp false (AuthCreated uid) displayName email now s).1 in
  postsOf s1 id !! postId = Some p →
  currentClaimedBy ≠ Some uid →
  postOwnerId ≠ uid →
  ∃ k n,
    notifications s1 !! k = None
    ∧ notifications
        (claimPost (Some u) id now' postId currentClaimedBy postOwnerId postTitle s1).1
      = <[k := n]> (notifications s1)
    ∧ Notification.userId n = postOwnerId
    ∧ Notification.message n
      = JS.trim displayName +:+ " claimed your " +:+ dquote +:+ postTitle +:+ dquote.
Proof.
  intros _ _ Hname <- s1 Hp Hcb Howner.
  assert (Hlookup : lookupDisplayName s1 (AuthUser.uid u) = Some (JS.trim displayName)).
  { subst s1. unfold signUp, lookupDisplayName. rewrite Hname. cbn.
    by rewrite lookup_insert_eq. }
  rewrite (claimPost_claim _ _ _ _ _ _ _ _ _ Hp) by done.
  rewrite bool_decide_eq_true_2 by done.
  eexists _, _. split; [apply fresh_notification|]. split; [done|]. split; [done|].
  unfold claimNotification, claimMessage, JS.or_else. cbn. rewrite Hlookup.
  by destruct (JS.trim displayName).
Qed.

End SignUp.

(** ** Time stamps of notifications *)

Section Timestamps.

(** X23. The age shown on a notification, for times within 2^52 milliseconds
    of the epoch (where the arithmetic of the source, on binary64 numbers, is
    the arithmetic on integers): "Just now" under a minute, also for a time
    in the future; the whole minutes from 1 to 59 under an hour; the whole
    hours from 1 to 23 under a day; the whole days from 1 to 6 under a week;
    the date from a week on. *)
Theorem formatTimestamp_ranges (localeDate : Z → string) (now seconds : Z) :
  (Z.abs now ≤ 2 ^ 52)%Z →
  (Z.abs (seconds * 1000) ≤ 2 ^ 52)%Z →
  let age := (now - seconds * 1000)%Z in
  let shown := formatTimestamp localeDate now seconds in
  ((age < 60000)%Z → shown = "Just now")
  ∧ ((60000 ≤ age < 3600000)%Z →
     (1 ≤ age `div` 60000 ≤ 59)%Z ∧ shown = pretty (age `div` 60000)%Z +:+ "m ago")
  ∧ ((3600000 ≤ age < 86400000)%Z →
     (1 ≤ age `div` 3600000 ≤ 23)%Z ∧ shown = pretty (age `div` 3600000)%Z +:+ "h ago")
  ∧ ((86400000 ≤ age < 604800000)%Z →
     (1 ≤ age `div` 86400000 ≤ 6)%Z ∧ shown = pretty (age `div` 86400000)%Z +:+ "d ago")
  ∧ ((604800000 ≤ age)%Z → shown = localeDate (seconds * 1000)%Z).
Proof.
  intros _ _ age shown. subst shown. unfold formatTimestamp. fold age.
  clearbody age.
  split; [|split; [|split; [|split]]]; intros Hage;
    repeat (match goal with |- context [(?a <? ?b)%Z] =>
              destruct (Z.ltb_spec a b) end);
    try done;
    try (exfalso; Z.div_mod_to_equations; lia);
    try (split; [Z.div_mod_to_equations; lia | done]).
Qed.

End Timestamps.

(** ** The further properties on the sample data *)

Lemma party_store_attendees_wf : attendees_wf party_store.
Proof.
  unfold attendees_wf, party_store. cbn [events].
  intros k e [_ <-]%lookup_singleton_Some. split.
  - apply (bool_decide_unpack _). vm_compute. exact I.
  - cbn. left.
Defined.

Lemma createPost_adds_card_witness :
  ∃ postId,
    postsOf party_store "e1" !! postId = None
    ∧ length
        (activePostsQuery
           (createPost (Some alice) "e1" " Tacos " "Six left" "" None 42
              party_store).1 "e1")
      = 2.
Proof.
  destruct (createPost_adds_card alice "e1" " Tacos " "Six left" "" None 42
              party_store) as (postId & Hnone & _ & Hperm & _).
  - reflexivity.
  - reflexivity.
  - reflexivity.
  - reflexivity.
  - reflexivity.
  - exists postId. split; [exact Hnone|]. rewrite Hperm. reflexivity.
Defined.

Lemma search_selects_matches_witness :
  filteredPosts "Pizza" [("p1", pizza)] `sublist_of` [("p1", pizza)]
  ∧ ∀ post,
      post ∈ filteredPosts "Pizza" [("p1", pizza)]
      ↔ post ∈ [("p1", pizza)]
        ∧ (all_chars JS.is_space "Pizza" = true
           ∨ occurs_in (Str.toLowerCase "Pizza") (Str.toLowerCase (Post.title post.2))
           ∨ occurs_in (Str.toLowerCase "Pizza")
               (Str.toLowerCase (Post.description post.2))
           ∨ occurs_in (Str.toLowerCase "Pizza")
               (Str.toLowerCase (Post.location post.2))).
Proof.
  apply (search_selects_matches "Pizza" [("p1", pizza)]).
  - reflexivity.
  - repeat constructor.
Defined.

Lemma search_narrows_witness :
  filteredPosts ("pi" +:+ "zza") [("p1", pizza)]
    `sublist_of` filteredPosts "pi" [("p1", pizza)].
Proof. apply (search_narrows "pi" "zza" [("p1", pizza)]); reflexivity. Defined.

Lemma join_adds_attendee_witness :
  handleJoinEvent (Some carol) " abc123 " party_store
  = (set_events (<["e1" := joined carol potluck]> (events party_store)) party_store,
     [Alert "Success!"
        ("You've joined " +:+ dquote +:+ "Potluck" +:+ dquote +:+ "!");
      ReplaceEvent "e1"])
  ∧ barcodeScanned false (Some carol) (qrValue potluck) party_store
    = (set_events (<["e1" := joined carol potluck]> (events party_store)) party_store,
       [ReplaceEvent "e1"])
  ∧ Event.attendees (joined carol potluck) = ["alice"; "bob"; "carol"].
Proof.
  apply (join_adds_attendee party_store "e1" potluck carol " abc123 ").
  - exact party_store_wf.
  - reflexivity.
  - apply (bool_decide_unpack _). vm_compute. exact I.
  - reflexivity.
Defined.

Lemma join_twice_witness :
  handleJoinEvent (Some carol) "ABC123"
    (handleJoinEvent (Some carol) "ABC123" party_store).1
  = already_joined (handleJoinEvent (Some carol) "ABC123" party_store).1 "e1"
  ∧ barcodeScanned false (Some carol) "GRUBIO:ABC123"
      (handleJoinEvent (Some carol) "ABC123" party_store).1
    = already_joined (handleJoinEvent (Some carol) "ABC123" party_store).1 "e1"
  ∧ (barcodeScanned false (Some carol) "GRUBIO:ABC123" party_store).1
    = (handleJoinEvent (Some carol) "ABC123" party_store).1.
Proof.
  apply (join_twice party_store "e1" potluck carol).
  - exact party_store_wf.
  - reflexivity.
  - apply (bool_decide_unpack _). vm_compute. exact I.
Defined.

Lemma attendees_invariant_witness : attendees_wf (run later_ops party_store).
Proof. apply (attendees_invariant later_ops party_store), party_store_attendees_wf. Defined.

Lemma events_only_grow_witness :
  ∃ e', events (run later_ops party_store) !! "e1" = Some e'
        ∧ event_extends potluck e'.
Proof. apply (events_only_grow later_ops party_store "e1" potluck). reflexivity. Defined.

Lemma posts_keep_content_witness :
  ∃ p', postsOf (run later_ops party_store) "e1" !! "p1" = Some p'
        ∧ post_same_content pizza p'.
Proof. apply (posts_keep_content later_ops party_store "e1" "p1" pizza). reflexivity. Defined.

Lemma notifications_only_get_read_witness :
  ∃ n', notifications (run [MarkAsRead "0"; MarkComplete "e1" "p1"] claimed_store)
          !! "0" = Some n'
        ∧ notification_extends bobs_claim_notice n'.
Proof.
  apply (notifications_only_get_read [MarkAsRead "0"; MarkComplete "e1" "p1"]
           claimed_store "0" bobs_claim_notice).
  reflexivity.
Defined.

Lemma claim_raises_owner_badge_witness :
  unreadCount "alice" claimed_store = S (unreadCount "alice" party_store)
  ∧ ∀ uid, uid ≠ "alice" → unreadCount uid claimed_store = unreadCount uid party_store.
Proof.
  apply (claim_raises_owner_badge party_store "e1" 20 bob ("p1", pizza)).
  - reflexivity.
  - discriminate.
  - reflexivity.
Defined.

Lemma notificationPress_reads_witness :
  (notificationPress ("0", bobs_claim_notice) claimed_store).2 = "e1"
  ∧ S (unreadCount "alice" (notificationPress ("0", bobs_claim_notice) claimed_store).1)
    = unreadCount "alice" claimed_store.
Proof.
  destruct (notificationPress_reads "alice" claimed_store ("0", bobs_claim_notice))
    as (Hevent & _ & Hcount & _).
  - apply elem_of_notificationsQuery. split; reflexivity.
  - reflexivity.
  - split; [exact Hevent | exact Hcount].
Defined.

Lemma home_list_never_shrinks_witness :
  ∃ e', ("e1", e') ∈ getEvents (Some bob) [] (run later_ops party_store)
        ∧ event_extends potluck e'.
Proof.
  apply (proj2 (proj2 (home_list_never_shrinks bob [] [] later_ops party_store))
           "e1" potluck).
  apply elem_of_getEvents. split; [reflexivity|].
  apply (bool_decide_unpack _). vm_compute. exact I.
Defined.

Lemma button_says_what_it_does_witness :
  Post.claimedBy <$> postsOf claimed_store "e1" !! "p1" = Some (Some "bob").
Proof.
  destruct (button_says_what_it_does party_store "e1" 20 bob ("p1", pizza))
    as [(_ & _ & Hstored) | [(Htext & _) | (Htext & _)]].
  - discriminate.
  - reflexivity.
  - discriminate.
  - exact Hstored.
  - discriminate Htext.
  - discriminate Htext.
Defined.

(** Bob leads with three posts, under the name of his newest post; Alice
    follows with two; Carol and Dave have one post each, and Carol, whose
    post comes first in the listing, takes the third place. *)
Example ranking_champions :
  foodChampions ranking_posts
  = [Champion.mk 3 "Bob"; Champion.mk 2 "Alice"; Champion.mk 1 "Carol"].
Proof. reflexivity. Qed.

Lemma ranking_posts_plain :
  Forall (λ post, plain_key (Post.userId post.2) = true) ranking_posts.
Proof. repeat constructor. Defined.

Lemma champions_are_authors_witness :
  ∃ k first mine,
    postsBy k ranking_posts = first :: mine
    ∧ 3 = length (postsBy k ranking_posts)
    ∧ "Bob" = posterName first.2.
Proof.
  apply (proj2 (champions_are_authors ranking_posts ranking_posts_plain)
           (Champion.mk 3 "Bob")).
  vm_compute. left.
Defined.

Lemma champions_are_ranked_witness :
  Champion.mk 1 "dave@example.org" ∈ foodChampions ranking_posts
  ∨ ∀ c', c' ∈ foodChampions ranking_posts
          → at_least_as_many c' (Champion.mk 1 "dave@example.org").
Proof.
  apply (proj2 (champions_are_ranked ranking_posts ranking_posts_plain) "dave"
           (Champion.mk 1 "dave@example.org")).
  reflexivity.
Defined.

Lemma signUp_name_in_claim_message_witness :
  ∃ n,
    Notification.userId n = "alice"
    ∧ Notification.message n = "Erin claimed your " +:+ dquote +:+ "Pizza" +:+ dquote.
Proof.
  destruct (signUp_name_in_claim_message "erin" "  Erin " "erin@example.org " 5
              party_store erin "e1" 20 "p1" None "alice" "Pizza" pizza)
    as (k & n & _ & _ & Hto & Hmsg).
  - reflexivity.
  - reflexivity.
  - reflexivity.
  - reflexivity.
  - reflexivity.
  - discriminate.
  - discriminate.
  - exists n. split; [exact Hto | exact Hmsg].
Defined.

Lemma formatTimestamp_ranges_witness :
  (1 ≤ 9000000 `div` 3600000 ≤ 23)%Z
  ∧ formatTimestamp (λ _, "Nov 1") 10000000 1000
    = pretty (9000000 `div` 3600000)%Z +:+ "h ago".
Proof.
  apply (proj1 (proj2 (proj2 (formatTimestamp_ranges (λ _, "Nov 1") 10000000 1000
                               ltac:(vm_compute; discriminate)
                               ltac:(vm_compute; discriminate))))).
  lia.
Defined.

(** Two and a half hours show as "2h ago"; a time in the future as
    "Just now". *)
Example formatTimestamp_samples :
  formatTimestamp (λ _, "Nov 1") 10000000 1000 = "2h ago"
  ∧ formatTimestamp (λ _, "Nov 1") 10000000 20000 = "Just now".
Proof. split; vm_compute; reflexivity. Qed.

(** ** Completing and claiming, as the listeners see them *)

Section Listeners.
Implicit Types (s : Store) (u v : AuthUser.t) (p : Post.t) (card : string * Post.t).

Lemma map_to_list_replace (m : gmap string Post.t) k p p' :
  m !! k = Some p →
  map_to_list m ≡ₚ (k, p) :: map_to_list (delete k m)
  ∧ map_to_list (<[k := p']> m) ≡ₚ (k, p') :: map_to_list (delete k m).
Proof.
  intros Hk. split.
  - symmetry. by apply map_to_list_delete.
  - rewrite <- insert_delete_eq. apply map_to_list_insert, lookup_delete_eq.
Qed.

Lemma completedPosts_allPostsQuery s id :
  completedPosts (allPostsQuery s id)
  = length (filter (λ d, Post.completed d.2 = true) (map_to_list (postsOf s id))).
Proof. unfold completedPosts, allPostsQuery. by rewrite merge_sort_Permutation. Qed.

Lemma totalPosts_allPostsQuery s id :
  totalPosts (allPostsQuery s id) = length (map_to_list (postsOf s id)).
Proof. unfold totalPosts, allPostsQuery. by rewrite merge_sort_Permutation. Qed.

Lemma length_activePostsQuery s id :
  length (activePostsQuery s id)
  = length (filter (λ d, Post.completed d.2 = false) (map_to_list (postsOf s id))).
Proof. unfold activePostsQuery. by rewrite merge_sort_Permutation. Qed.

(** X24. "Mark Complete" is offered to the owner only.  Pressed by the owner
    on a card that shows the stored, uncompleted post, it takes exactly that
    card out of the feed, raises the completed count of the analytics by one
    and leaves the total; pressed on the card of somebody else's post, it
    does nothing. *)
Theorem complete_leaves_the_feed s id u card :
  postsOf s id !! card.1 = Some card.2 →
  Post.completed card.2 = false →
  Post.userId card.2 = AuthUser.uid u →
  let s' := (pressComplete (Some u) id card s).1 in
  activePostsQuery s id ≡ₚ card :: activePostsQuery s' id
  ∧ completedPosts (allPostsQuery s' id) = S (completedPosts (allPostsQuery s id))
  ∧ totalPosts (allPostsQuery s' id) = totalPosts (allPostsQuery s id)
  ∧ ∀ v, Post.userId card.2 ≠ AuthUser.uid v →
         completeButton (Some v) card = Hidden
         ∧ pressComplete (Some v) id card s = (s, []).
Proof.
  intros Hp Hactive Howner s'.
  assert (Hs' : s' = putPost s id card.1 (Post.with_completed true card.2)).
  { subst s'. unfold pressComplete, completeButton, isOwner.
    rewrite bool_decide_eq_true_2 by done.
    by rewrite (markComplete_existing _ _ _ _ Hp). }
  destruct (map_to_list_replace (postsOf s id) card.1 card.2
              (Post.with_completed true card.2) Hp) as [Hold Hnew].
  assert (Hposts : postsOf s' id
                   = <[card.1 := Post.with_completed true card.2]> (postsOf s id))
    by (rewrite Hs', postsOf_putPost; by rewrite decide_True).
  split; [|split; [|split]].
  - unfold activePostsQuery. rewrite !merge_sort_Permutation, Hposts, Hold, Hnew.
    rewrite filter_cons_True by done. rewrite filter_cons_False; [|by cbn].
    by destruct card.
  - rewrite !completedPosts_allPostsQuery, Hposts, Hold, Hnew.
    rewrite filter_cons_True by done.
    rewrite filter_cons_False; [done|]. cbn. by rewrite Hactive.
  - rewrite !totalPosts_allPostsQuery, Hposts, Hold, Hnew. done.
  - intros v Hv. unfold pressComplete, completeButton, isOwner.
    by rewrite bool_decide_eq_false_2.
Qed.

(** X25. A claim moves no card: after a user other than the owner claims an
    unclaimed post from a card that shows the stored post, the feed has as
    many cards as before, the total of the analytics is the same, and the
    claimed count is one higher. *)
Theorem claim_counts_once s id now u card :
  AuthUser.uid u ≠ EmptyString →
  postsOf s id !! card.1 = Some card.2 →
  Post.userId card.2 ≠ AuthUser.uid u →
  JS.truthy (Post.claimedBy card.2) = false →
  let s' := (pressClaim (Some u) id now card s).1 in
  length (activePostsQuery s' id) = length (activePostsQuery s id)
  ∧ totalPosts (allPostsQuery s' id) = totalPosts (allPostsQuery s id)
  ∧ claimedPosts (allPostsQuery s' id) = S (claimedPosts (allPostsQuery s id)).
Proof.
  intros Huid Hp Howner Hfree s'.
  set (p' := Post.with_claim (Some (AuthUser.uid u))
               (lookupDisplayName s (AuthUser.uid u)) (AuthUser.email u) card.2).
  assert (Hposts : postsOf s' id = <[card.1 := p']> (postsOf s id)).
  { subst s'. rewrite pressClaim_unclaimed by done.
    rewrite (claimPost_claim _ _ _ _ _ _ _ _ _ Hp) by done.
    rewrite bool_decide_eq_true_2 by done. cbn [fst].
    rewrite postsOf_set_notifications, postsOf_putPost. by rewrite decide_True. }
  destruct (map_to_list_replace (postsOf s id) card.1 card.2 p' Hp) as [Hold Hnew].
  split; [|split].
  - rewrite !length_activePostsQuery, Hposts, Hold, Hnew.
    rewrite !filter_cons. cbn [snd]. subst p'. cbn.
    by destruct (decide (Post.completed card.2 = false)).
  - rewrite !totalPosts_allPostsQuery, Hposts, Hold, Hnew. done.
  - rewrite !claimedPosts_allPostsQuery, Hposts.
    rewrite (claimedPosts_Permutation _ _ Hold), (claimedPosts_Permutation _ _ Hnew).
    rewrite !claimedPosts_cons. cbn [snd]. rewrite Hfree. subst p'. cbn.
    by destruct (AuthUser.uid u).
Qed.

End Listeners.

(** ** The range of the generator *)

Section GeneratorRange.

Lemma charAt_charIndex c :
  code_char c = true →
  JS.charAt chars (charIndex c) = String c EmptyString ∧ charIndex c < 36.
Proof.
  intros Hc.
  destruct c as [[] [] [] [] [] [] [] []];
    try (vm_compute in Hc; discriminate Hc);
    (split; [reflexivity | vm_compute; lia]).
Qed.

(** X27. Every well-formed code, six characters over A-Z and 0-9, is the
    outcome of [generateJoinCode] for some six draws below [chars.length]:
    with the claim on the format, the generator produces exactly the
    well-formed codes. *)
Theorem every_code_can_be_drawn code :
  valid_code code →
  ∃ rnd, (∀ k, rnd k < 36) ∧ generateJoinCode rnd 0 = (code, 6).
Proof.
  intros [Hlen Hall].
  destruct code as [|c1 [|c2 [|c3 [|c4 [|c5 [|c6 [|c7 r]]]]]]]; try done.
  cbn [all_chars] in Hall. rewrite !andb_true_iff in Hall.
  destruct Hall as (H1 & H2 & H3 & H4 & H5 & H6 & _).
  destruct (charAt_charIndex _ H1) as [E1 B1], (charAt_charIndex _ H2) as [E2 B2],
    (charAt_charIndex _ H3) as [E3 B3], (charAt_charIndex _ H4) as [E4 B4],
    (charAt_charIndex _ H5) as [E5 B5], (charAt_charIndex _ H6) as [E6 B6].
  exists (λ k, match k with
               | 0 => charIndex c1 | 1 => charIndex c2 | 2 => charIndex c3
               | 3 => charIndex c4 | 4 => charIndex c5 | 5 => charIndex c6
               | _ => 0
               end).
  split.
  - intros k. do 6 (destruct k as [|k]; [done|]). lia.
  - unfold generateJoinCode. cbn [generateJoinCode_loop].
    by rewrite E1, E2, E3, E4, E5, E6.
Qed.

End GeneratorRange.

Lemma complete_leaves_the_feed_witness :
  activePostsQuery claimed_store "e1"
  ≡ₚ ("p1", pizza_for_bob) :: activePostsQuery completed_store "e1"
  ∧ completedPosts (allPostsQuery completed_store "e1")
    = S (completedPosts (allPostsQuery claimed_store "e1")).
Proof.
  destruct (complete_leaves_the_feed claimed_store "e1" alice ("p1", pizza_for_bob))
    as (Hfeed & Hdone & _).
  - reflexivity.
  - reflexivity.
  - reflexivity.
  - split; [exact Hfeed | exact Hdone].
Defined.

Lemma claim_counts_once_witness :
  length (activePostsQuery claimed_store "e1")
  = length (activePostsQuery party_store "e1")
  ∧ totalPosts (allPostsQuery claimed_store "e1")
    = totalPosts (allPostsQuery party_store "e1")
  ∧ claimedPosts (allPostsQuery claimed_store "e1")
    = S (claimedPosts (allPostsQuery party_store "e1")).
Proof.
  apply (claim_counts_once party_store "e1" 20 bob ("p1", pizza)).
  - discriminate.
  - reflexivity.
  - discriminate.
  - reflexivity.
Defined.

Lemma every_code_can_be_drawn_witness :
  ∃ rnd, (∀ k, rnd k < 36) ∧ generateJoinCode rnd 0 = ("ABC123", 6).
Proof. apply (every_code_can_be_drawn "ABC123"). split; reflexivity. Defined.
